(** * CachedEnforcer: a sharded decision cache in front of an enforcer

    Shallow embedding of [enforcer_cached.go] (package casbin).

    - Go strings are byte sequences: [string] (a list of 8-bit [ascii]).
    - [interface{}] request parameters are a tagged union, [Param].
    - The two collaborators the file only consumes, the [cache.Cache]
      backend and the embedded [*Enforcer], are interfaces: type classes
      [Cache] and [Engine] over an abstract state.
    - Methods of [*CachedEnforcer] are computations in a small monad [M]
      that threads the enforcer, can panic (Go run-time errors) and logs
      every call it makes to a collaborator or a mutex as an [Event].
    - [int] is taken to be 64 bits wide, so [int(h.Sum32())] is never
      negative. Execution is sequential: the mutexes appear only as
      lock/unlock events. Every shard owns its backend (no two slots alias
      one backend object), as [NewCachedEnforcer] builds them. *)

From Stdlib Require Import ZArith Lia Ascii String.
From stdpp Require Import base option list strings gmap.

Open Scope string_scope.
Open Scope list_scope.
Open Scope nat_scope.

(** ** Errors *)

(** Go [error] values. [cache.ErrNoSuchKey] is a sentinel compared by
    identity; every other error is a backend or engine failure. A nil
    error is [None]. *)
Inductive error : Type :=
| ErrNoSuchKey
| ErrOther (msg : string).

#[global] Instance error_eq_dec : EqDecision error.
Proof. solve_decision. Defined.

(** [err != nil && err != cache.ErrNoSuchKey] *)
Definition is_failure (err : option error) : bool :=
  match err with
  | None => false
  | Some ErrNoSuchKey => false
  | Some (ErrOther _) => true
  end.

(** ** Request parameters *)

(** [type CacheableParam interface { GetCacheKey() string }] *)
Record CacheableParam : Type := { GetCacheKey : string }.

(** A value of type [interface{}]: a raw string, a value implementing
    [CacheableParam], the nil interface, or a value of any other dynamic
    type (an integer stands for it). *)
Inductive Param : Type :=
| PString (s : string)
| PCacheable (c : CacheableParam)
| PNil
| POther (v : Z).

(** ** getKey *)

Definition separator : string := "$$".

(** The loop of [getKey]; [key] is the content of the [strings.Builder]. *)
Fixpoint getKey_loop (key : string) (params : list Param) : string * bool :=
  match params with
  | [] => (key, true)
  | param :: params' =>
      match param with
      | PString typedParam =>
          getKey_loop ((key +:+ typedParam) +:+ separator) params'
      | PCacheable typedParam =>
          getKey_loop ((key +:+ GetCacheKey typedParam) +:+ separator) params'
      | _ => ("", false)
      end
  end.

Definition getKey (params : list Param) : string * bool :=
  getKey_loop "" params.

(** The string form of a parameter, when it has one. *)
Definition paramKey (p : Param) : option string :=
  match p with
  | PString s => Some s
  | PCacheable c => Some (GetCacheKey c)
  | _ => None
  end.

(** The key as the specification words it: every string form, in order,
    each followed by the separator. *)
Definition joinKey (ks : list string) : string :=
  foldr (λ k acc, k +:+ separator +:+ acc) "" ks.

(** A string form that cannot be confused with the separator: it has no
    two consecutive ['$'] and does not end in ['$']. *)
Fixpoint sep_safe (s : string) : bool :=
  match s with
  | EmptyString => true
  | String c s' =>
      if decide (c = "$"%char)
      then match s' with
           | EmptyString => false
           | String c' _ => if decide (c' = "$"%char) then false else sep_safe s'
           end
      else sep_safe s'
  end.

(** Every string form of the tuple is separator-safe. *)
Definition safe_tuple (params : list Param) : bool :=
  forallb (λ p, match paramKey p with
                | Some k => sep_safe k
                | None => true
                end) params.

(** ** getShardIdx *)

Definition shardPartitions : nat := 32.

(** [hash/fnv]: 32-bit FNV-1a. *)
Definition offset32 : Z := 2166136261.
Definition prime32 : Z := 16777619.

Definition fnv32a_byte (h : Z) (c : ascii) : Z :=
  (Z.lxor h (Z.of_N (Ascii.N_of_ascii c)) * prime32) mod 2 ^ 32.

Fixpoint fnv32a_write (h : Z) (s : string) : Z :=
  match s with
  | EmptyString => h
  | String c s' => fnv32a_write (fnv32a_byte h c) s'
  end.

Definition Sum32 (s : string) : Z := fnv32a_write offset32 s.

(** [h.Write] of an FNV hash never returns an error, so the [return 0]
    branch is dead. *)
Definition getShardIdx (s : string) : nat :=
  Z.to_nat (Sum32 s mod Z.of_nat shardPartitions).

(** ** The collaborators *)

(** Modelled from the spec: the cache backend capability [cache.Cache]
    (package persist/cache is outside this file): Get, Set, Delete and
    Clear. [Get] is a query, the coordinator calls it under a read lock;
    the other three return the error and the backend they leave behind.
    [extra] is the variadic tail of [Set], here the expiry time. *)
Class Cache (B : Type) : Type := {
  cache_Get : B → string → bool * option error;
  cache_Set : B → string → bool → list N → option error * B;
  cache_Delete : B → string → option error * B;
  cache_Clear : B → option error * B;
}.

(** Modelled from the spec: the decision engine capability, the embedded
    [*Enforcer] (its methods are outside this file): Enforce, LoadPolicy,
    RemovePolicy and RemovePolicies, each returning its results and the
    engine it leaves behind. *)
Class Engine (E : Type) : Type := {
  Enforcer_Enforce : E → list Param → (bool * option error) * E;
  Enforcer_LoadPolicy : E → option error * E;
  Enforcer_RemovePolicy : E → list Param → (bool * option error) * E;
  Enforcer_RemovePolicies :
    E → list (list string) → (bool * option error) * E;
}.

(** ** Observable calls *)

Inductive Event : Type :=
| CallEnforce (rvals : list Param)
| CallLoadPolicy
| CallRemovePolicy (params : list Param)
| CallRemovePolicies (rules : list (list string))
| CallGet (idx : nat) (key : string)
| CallSet (idx : nat) (key : string) (res : bool) (extra : list N)
| CallDelete (idx : nat) (key : string)
| CallClear (idx : nat)
| Lock (idx : nat)
| Unlock (idx : nat)
| RLock (idx : nat)
| RUnlock (idx : nat).

#[global] Instance CacheableParam_eq_dec : EqDecision CacheableParam.
Proof. solve_decision. Defined.
#[global] Instance Param_eq_dec : EqDecision Param.
Proof. solve_decision. Defined.
#[global] Instance Event_eq_dec : EqDecision Event.
Proof. solve_decision. Defined.

Definition is_CallEnforce (ev : Event) : bool :=
  match ev with CallEnforce _ => true | _ => false end.

(** How often the decision engine was asked for a decision. *)
Definition evaluations (t : list Event) : nat :=
  length (filter (λ ev, is_CallEnforce ev = true) t).

(** A call returns, or stops in a Go run-time panic. *)
Inductive Result (A : Type) : Type :=
| Ok (a : A)
| Panic (msg : string).
Arguments Ok {A} a.
Arguments Panic {A} msg.

Definition is_nil (err : option error) : bool :=
  match err with None => true | Some _ => false end.

Definition is_ErrNoSuchKey (err : option error) : bool :=
  match err with Some ErrNoSuchKey => true | _ => false end.

(** The inner loop of [RemovePolicies]: [irule[i] = param] for every
    parameter of the rule, from index [i] on; writing at or past
    [len(irule)] panics. *)
Fixpoint fill_irule (irule : list Param) (i : nat) (rule : list string)
  : Result (list Param) :=
  match rule with
  | [] => Ok irule
  | param :: rule' =>
      if decide (i < length irule)
      then fill_irule (<[i := PString param]> irule) (S i) rule'
      else Panic "index out of range"
  end.

Section Coordinator.
Context {B E : Type} `{!Cache B} `{!Engine E}.

(** [type CachedEnforcer struct]; [locker] holds no data the sequential
    model needs. *)
Record CachedEnforcer : Type := mkCachedEnforcer {
  Enforcer : E;
  expireTime : N;
  cache : list B;
  enableCache : Z;
}.

Definition with_Enforcer (e : CachedEnforcer) (eng : E) : CachedEnforcer :=
  {| Enforcer := eng; expireTime := expireTime e;
     cache := cache e; enableCache := enableCache e |}.

Definition with_cache (e : CachedEnforcer) (c : list B) : CachedEnforcer :=
  {| Enforcer := Enforcer e; expireTime := expireTime e;
     cache := c; enableCache := enableCache e |}.

(** *** The monad of methods *)

Definition M (A : Type) : Type :=
  CachedEnforcer → Result A * CachedEnforcer * list Event.

Definition ret {A} (a : A) : M A := λ e, (Ok a, e, []).

(** What a run yields when the calls [t1] were made before it. *)
Definition after {A} (t1 : list Event)
    (x : Result A * CachedEnforcer * list Event)
  : Result A * CachedEnforcer * list Event :=
  match x with (r, e2, t2) => (r, e2, t1 ++ t2) end.

Definition bind {A C} (m : M A) (k : A → M C) : M C :=
  λ e, match m e with
       | (Ok a, e1, t1) => after t1 (k a e1)
       | (Panic msg, e1, t1) => (Panic msg, e1, t1)
       end.

Definition emit (ev : Event) : M unit := λ e, (Ok tt, e, [ev]).

Definition lift {A} (r : Result A) : M A := λ e, (r, e, []).

(** [body] with [d] deferred: [d] runs when [body] is left, also by a
    panic. *)
Definition defer {A} (d : M unit) (body : M A) : M A :=
  λ e, match body e with
       | (r, e1, t1) =>
           match d e1 with (_, e2, t2) => (r, e2, t1 ++ t2) end
       end.

Notation "x <- m ; k" := (bind m (λ x, k))
  (at level 20, m at level 100, k at level 200, only parsing).
Notation "' pat <- m ; k" := (bind m (λ x, match x with pat => k end))
  (at level 20, pat pattern, m at level 100, k at level 200, only parsing).

(** *** Primitive steps *)

(** [atomic.LoadInt32(&e.enableCache)] *)
Definition LoadInt32_enableCache : M Z := λ e, (Ok (enableCache e), e, []).

Definition get_expireTime : M N := λ e, (Ok (expireTime e), e, []).

(** [e.cache[idx]], read and written *)
Definition shard (idx : nat) : M B :=
  λ e, match cache e !! idx with
       | Some c => (Ok c, e, [])
       | None => (Panic "index out of range", e, [])
       end.

Definition set_shard (idx : nat) (c : B) : M unit :=
  λ e, (Ok tt, with_cache e (<[idx := c]> (cache e)), []).

(** [e.cache[idx].Get(key)] and the three mutating methods *)
Definition shard_Get (idx : nat) (key : string) : M (bool * option error) :=
  c <- shard idx ;
  _ <- emit (CallGet idx key) ;
  ret (cache_Get c key).

Definition shard_Set (idx : nat) (key : string) (res : bool)
    (extra : list N) : M (option error) :=
  c <- shard idx ;
  _ <- emit (CallSet idx key res extra) ;
  _ <- set_shard idx (cache_Set c key res extra).2 ;
  ret (cache_Set c key res extra).1.

Definition shard_Delete (idx : nat) (key : string) : M (option error) :=
  c <- shard idx ;
  _ <- emit (CallDelete idx key) ;
  _ <- set_shard idx (cache_Delete c key).2 ;
  ret (cache_Delete c key).1.

Definition shard_Clear (idx : nat) : M (option error) :=
  c <- shard idx ;
  _ <- emit (CallClear idx) ;
  _ <- set_shard idx (cache_Clear c).2 ;
  ret (cache_Clear c).1.

(** The methods of the embedded [*Enforcer] *)
Definition call_Enforce (rvals : list Param) : M (bool * option error) :=
  λ e, let r := Enforcer_Enforce (Enforcer e) rvals in
       (Ok r.1, with_Enforcer e r.2, [CallEnforce rvals]).

Definition call_LoadPolicy : M (option error) :=
  λ e, let r := Enforcer_LoadPolicy (Enforcer e) in
       (Ok r.1, with_Enforcer e r.2, [CallLoadPolicy]).

Definition call_RemovePolicy (params : list Param)
  : M (bool * option error) :=
  λ e, let r := Enforcer_RemovePolicy (Enforcer e) params in
       (Ok r.1, with_Enforcer e r.2, [CallRemovePolicy params]).

Definition call_RemovePolicies (rules : list (list string))
  : M (bool * option error) :=
  λ e, let r := Enforcer_RemovePolicies (Enforcer e) rules in
       (Ok r.1, with_Enforcer e r.2, [CallRemovePolicies rules]).

(** *** The methods of [*CachedEnforcer] *)

Definition EnableCache (enableCache : bool) : M unit :=
  λ e, let enabled : Z := if enableCache then 1%Z else 0%Z in
       (Ok tt,
        {| Enforcer := Enforcer e; expireTime := expireTime e;
           cache := cache e; enableCache := enabled |}, []).

Definition SetExpireTime (expireTime : N) : M unit :=
  λ e, (Ok tt,
        {| Enforcer := Enforcer e; expireTime := expireTime;
           cache := cache e; enableCache := enableCache e |}, []).

Definition SetCache (key : string) (c : B) : M unit :=
  λ e, let idx := getShardIdx key in
       if decide (idx < length (cache e))
       then (Ok tt, with_cache e (<[idx := c]> (cache e)), [])
       else (Panic "index out of range", e, []).

Definition getCachedResult (key : string) : M (bool * option error) :=
  let idx := getShardIdx key in
  _ <- emit (RLock idx) ;
  defer (emit (RUnlock idx)) (shard_Get idx key).

Definition setCachedResult (key : string) (res : bool) (extra : list N)
  : M (option error) :=
  let idx := getShardIdx key in
  _ <- emit (Lock idx) ;
  defer (emit (Unlock idx)) (shard_Set idx key res extra).

Definition Enforce (rvals : list Param) : M (bool * option error) :=
  enabled <- LoadInt32_enableCache ;
  if decide (enabled = 0%Z) then call_Enforce rvals
  else
    let '(key, ok) := getKey rvals in
    if negb ok then call_Enforce rvals
    else
      ' (res, err) <- getCachedResult key ;
      if is_nil err then ret (res, None)
      else if negb (is_ErrNoSuchKey err) then ret (res, err)
      else
        ' (res, err) <- call_Enforce rvals ;
        if negb (is_nil err) then ret (false, err)
        else
          ttl <- get_expireTime ;
          err <- setCachedResult key res [ttl] ;
          ret (res, err).

(** [for i := 0; i < shardPartitions; i++], with [n] iterations left *)
Fixpoint LoadPolicy_loop (n i : nat) : M (option error) :=
  match n with
  | 0 => ret None
  | S n' =>
      err <- shard_Clear i ;
      if negb (is_nil err) then ret err
      else LoadPolicy_loop n' (S i)
  end.

Definition LoadPolicy : M (option error) :=
  enabled <- LoadInt32_enableCache ;
  err <- (if decide (enabled ≠ 0%Z)
          then LoadPolicy_loop shardPartitions 0
          else ret None) ;
  if negb (is_nil err) then ret err
  else call_LoadPolicy.

Definition RemovePolicy (params : list Param) : M (bool * option error) :=
  enabled <- LoadInt32_enableCache ;
  err <- (if decide (enabled ≠ 0%Z)
          then
            let '(key, ok) := getKey params in
            if ok then
              let idx := getShardIdx key in
              err <- shard_Delete idx key ;
              if is_failure err then ret err else ret None
            else ret None
          else ret None) ;
  if negb (is_nil err) then ret (false, err)
  else call_RemovePolicy params.

(** [for _, rule := range rules]; an early [return false, err] is
    [Some err]. *)
Fixpoint RemovePolicies_loop (irule : list Param)
    (rules : list (list string)) : M (option error) :=
  match rules with
  | [] => ret None
  | rule :: rules' =>
      irule' <- lift (fill_irule irule 0 rule) ;
      let '(key, _) := getKey irule' in
      let idx := getShardIdx key in
      err <- shard_Delete idx key ;
      if is_failure err then ret err
      else RemovePolicies_loop irule' rules'
  end.

Definition RemovePolicies (rules : list (list string))
  : M (bool * option error) :=
  err <- match rules with
         | [] => ret None
         | rules0 :: _ =>
             enabled <- LoadInt32_enableCache ;
             if decide (enabled ≠ 0%Z)
             then RemovePolicies_loop (replicate (length rules0) PNil) rules
             else ret None
         end ;
  if negb (is_nil err) then ret (false, err)
  else call_RemovePolicies rules.

(** [for i := 0; i < shardPartitions; i++] with the deferred unlocks:
    they run when the function is left, last registered first. *)
Fixpoint InvalidateCache_loop (n i : nat) : M (option error) :=
  match n with
  | 0 => ret None
  | S n' =>
      _ <- emit (Lock i) ;
      defer (emit (Unlock i))
        (err <- shard_Clear i ;
         if negb (is_nil err) then ret err
         else InvalidateCache_loop n' (S i))
  end.

Definition InvalidateCache : M (option error) :=
  InvalidateCache_loop shardPartitions 0.

End Coordinator.

Arguments CachedEnforcer : clear implicits.
Arguments M : clear implicits.

(** ** The shard count *)

(** A method that leaves the number of shards as it found it. *)
Definition keeps_shards {B E A : Type} (m : M B E A) : Prop :=
  ∀ e, length (cache (m e).1.2) = length (cache e).

(** ** Clearing shards in ascending order *)

(** The backends that [Clear] leaves behind. *)
Definition cleared {B : Type} `{!Cache B} (bs : list B) : list B :=
  (λ b, (cache_Clear b).2) <$> bs.

(** [Clear] succeeds on this backend. *)
Definition clears {B : Type} `{!Cache B} (b : B) : Prop :=
  (cache_Clear b).1 = None.

#[global] Instance clears_dec {B : Type} `{!Cache B} (b : B) :
  Decision (clears b).
Proof. unfold clears. apply _. Defined.

(** The calls of [InvalidateCache] over the [k] shards from [i] on: each
    shard is locked and cleared in turn, and the locks are released in
    the reverse order once the last of them was cleared. *)
Fixpoint locked_clears (i k : nat) : list Event :=
  match k with
  | 0 => []
  | S k' => Lock i :: CallClear i :: locked_clears (S i) k' ++ [Unlock i]
  end.

(** ** The parameter buffer of RemovePolicies *)

(** The buffer once the inner loop has copied a rule that fits into it:
    the rule, then what the buffer held past the rule's length. *)
Definition irule_after (irule : list Param) (rule : list string)
  : list Param :=
  (PString <$> rule) ++ drop (length rule) irule.

(** The buffer at each key derivation, rule after rule. *)
Fixpoint irules (irule : list Param) (rules : list (list string))
  : list (list Param) :=
  match rules with
  | [] => []
  | rule :: rules' =>
      irule_after irule rule :: irules (irule_after irule rule) rules'
  end.

(** The [Delete] issued for a buffer: its key, on the shard of that key. *)
Definition delete_call (irule : list Param) : Event :=
  CallDelete (getShardIdx (getKey irule).1) (getKey irule).1.

(** ** What a backend may promise *)

(** A backend that keeps its entries: a stored decision is found again,
    a deleted key is gone, and [Delete] leaves the other keys alone. *)
Class KeepsEntries (B : Type) `{!Cache B} : Prop := {
  Set_then_Get c key res extra c' :
    cache_Set c key res extra = (None, c') →
    cache_Get c' key = (res, None);
  Delete_then_Get c key :
    is_failure (cache_Delete c key).1 = false →
    (cache_Get (cache_Delete c key).2 key).2 = Some ErrNoSuchKey;
  Delete_frame c key key' :
    key' ≠ key →
    cache_Get (cache_Delete c key).2 key' = cache_Get c key';
}.

(** A backend whose operations succeed: [Get] and [Delete] report at
    most not-found, [Set] reports nothing. *)
Class Reliable (B : Type) `{!Cache B} : Prop := {
  Get_reliable c key : is_failure (cache_Get c key).2 = false;
  Set_reliable c key res extra : (cache_Set c key res extra).1 = None;
  Delete_reliable c key : is_failure (cache_Delete c key).1 = false;
}.

(** ** Backends and an engine to run the coordinator on *)

(** Modelled from the spec: the default backend [cache.DefaultCache] (a
    [map[string]bool] of package persist/cache, outside this file). Get
    reports the distinguished not-found error for an absent key, Set
    overwrites, Delete of an absent key reports not-found, Clear drops
    every entry; none of them fails otherwise. *)
Abbreviation DefaultCache := (gmap string bool).

#[global] Instance DefaultCache_Cache : Cache DefaultCache := {|
  cache_Get c key :=
    match c !! key with
    | Some res => (res, None)
    | None => (false, Some ErrNoSuchKey)
    end;
  cache_Set c key res _ := (None, <[key := res]> c);
  cache_Delete c key :=
    match c !! key with
    | Some _ => (None, delete key c)
    | None => (Some ErrNoSuchKey, c)
    end;
  cache_Clear _ := (None, ∅);
|}.

(** A backend installed with [SetCache] need not be reliable. [Remote]
    keeps its entries in a store that can be reachable, read-only (every
    mutation fails) or down (every call fails). *)
Inductive Fault : Type := Healthy | ReadOnly | Down.

Record Remote : Type := mkRemote { store : DefaultCache; fault : Fault }.

Definition unavailable : error := ErrOther "backend unavailable".

#[global] Instance Remote_Cache : Cache Remote := {|
  cache_Get c key :=
    match fault c with
    | Down => (false, Some unavailable)
    | _ => cache_Get (store c) key
    end;
  cache_Set c key res extra :=
    match fault c with
    | Healthy =>
        ((cache_Set (store c) key res extra).1,
         mkRemote (cache_Set (store c) key res extra).2 Healthy)
    | _ => (Some unavailable, c)
    end;
  cache_Delete c key :=
    match fault c with
    | Healthy =>
        ((cache_Delete (store c) key).1,
         mkRemote (cache_Delete (store c) key).2 Healthy)
    | _ => (Some unavailable, c)
    end;
  cache_Clear c :=
    match fault c with
    | Healthy => (None, mkRemote ∅ Healthy)
    | _ => (Some unavailable, c)
    end;
|}.

(** A small decision engine: the policy is a list of rules, each a list
    of strings. A request must have three parameters with a string form,
    anything else is an error; it is allowed when the policy holds it. *)
Definition Policy : Type := list (list string).

Definition invalid_request : error := ErrOther "invalid request size".

#[global] Instance Policy_Engine : Engine Policy := {|
  Enforcer_Enforce policy rvals :=
    match mapM paramKey rvals with
    | Some req =>
        if decide (length req = 3)
        then (bool_decide (req ∈ policy), None, policy)
        else (false, Some invalid_request, policy)
    | None => (false, Some invalid_request, policy)
    end;
  Enforcer_LoadPolicy policy := (None, policy);
  Enforcer_RemovePolicy policy params :=
    match mapM paramKey params with
    | Some rule =>
        (bool_decide (rule ∈ policy), None,
         filter (λ r, r ≠ rule) policy)
    | None => (false, Some invalid_request, policy)
    end;
  Enforcer_RemovePolicies policy rules :=
    (bool_decide (Forall (λ rule, rule ∈ policy) rules), None,
     filter (λ r, r ∉ rules) policy);
|}.

(** [NewCachedEnforcer]: the loop appends one empty default backend per
    shard ([n] iterations left). [NewEnforcer] is the constructor of the
    embedded engine. *)
Fixpoint NewCachedEnforcer_loop (n : nat) (cache : list DefaultCache)
  : list DefaultCache :=
  match n with
  | 0 => cache
  | S n' => NewCachedEnforcer_loop n' (cache ++ [∅])
  end.

Definition NewCachedEnforcer {E : Type} (NewEnforcer : list Param → E + error)
    (params : list Param) : option (CachedEnforcer DefaultCache E) * option error :=
  match NewEnforcer params with
  | inr err => (None, Some err)
  | inl eng =>
      (Some {| Enforcer := eng; expireTime := 0;
               cache := NewCachedEnforcer_loop shardPartitions [];
               enableCache := 1 |}, None)
  end.

(** The running example: one rule, the default backends. *)
Definition alice_policy : Policy := [["alice"; "data1"; "read"]].

Definition alice_enforcer : CachedEnforcer DefaultCache Policy :=
  {| Enforcer := alice_policy; expireTime := 0;
     cache := NewCachedEnforcer_loop shardPartitions [];
     enableCache := 1 |}.

Definition alice_request : list Param :=
  [PString "alice"; PString "data1"; PString "read"].

(** An enforcer whose shards are [Remote] backends with the given states. *)
Definition remote_enforcer (faults : nat → Fault)
  : CachedEnforcer Remote Policy :=
  {| Enforcer := alice_policy; expireTime := 0;
     cache := (λ i, mkRemote ∅ (faults i)) <$> seq 0 shardPartitions;
     enableCache := 1 |}.

(** Shard [k] is in state [f], every other shard is healthy. *)
Definition fault_at (k : nat) (f : Fault) : nat → Fault :=
  λ i, if decide (i = k) then f else Healthy.

(** Remote backends, the one of shard [3] read-only. *)
Definition readonly_shard3 : CachedEnforcer Remote Policy :=
  remote_enforcer (fault_at 3 ReadOnly).

(** Remote backends, all of them read-only. *)
Definition readonly_all : CachedEnforcer Remote Policy :=
  remote_enforcer (λ _, ReadOnly).

(** The running example after one decision was cached. *)
Definition alice_cached : CachedEnforcer DefaultCache Policy :=
  (Enforce alice_request alice_enforcer).1.2.

(** The running example with caching switched off. *)
Definition alice_uncached : CachedEnforcer DefaultCache Policy :=
  (EnableCache false alice_enforcer).1.2.

(** ** Further promises and states *)

(** A backend whose successful [Clear] leaves no entry behind. *)
Class ClearEmpties (B : Type) `{!Cache B} : Prop := {
  Clear_then_Get c key :
    (cache_Clear c).1 = None →
    (cache_Get (cache_Clear c).2 key).2 = Some ErrNoSuchKey;
}.

(** A method that, on an enforcer with [shardPartitions] shards, returns
    without a panic and leaves the number of shards, the enable flag and
    the expiry time as they were. *)
Definition steady {B E A : Type} (m : M B E A) : Prop :=
  ∀ e, length (cache e) = shardPartitions →
       (∃ a, (m e).1.1 = Ok a)
       ∧ length (cache (m e).1.2) = shardPartitions
       ∧ enableCache (m e).1.2 = enableCache e
       ∧ expireTime (m e).1.2 = expireTime e.

(** The [Delete] that [RemovePolicies] owes a rule: the rule's own key. *)
Definition rule_delete (rule : list string) : Event :=
  CallDelete (getShardIdx (joinKey rule)) (joinKey rule).

(** A second request of the running example. *)
Definition bob_request : list Param :=
  [PString "bob"; PString "data2"; PString "write"].

(** ** Basic facts on strings and keys *)

Lemma append_nil_l (b : string) : "" +:+ b = b.
Proof. reflexivity. Qed.

Lemma append_cons (x : ascii) (a b : string) :
  String x a +:+ b = String x (a +:+ b).
Proof. reflexivity. Qed.

Lemma append_assoc (a b c : string) : (a +:+ b) +:+ c = a +:+ (b +:+ c).
Proof.
  induction a as [|x a IH]; [done|]. by rewrite !append_cons, IH.
Qed.

Lemma append_nil_r (a : string) : a +:+ "" = a.
Proof. induction a as [|x a IH]; [done|]. by rewrite append_cons, IH. Qed.

Lemma getKey_loop_Some (params : list Param) (ks : list string) (key : string) :
  mapM paramKey params = Some ks →
  getKey_loop key params = (key +:+ joinKey ks, true).
Proof.
  revert ks key. induction params as [|p params IH]; intros ks key Hm.
  - injection Hm as <-. simpl. by rewrite append_nil_r.
  - rewrite mapM_Some in Hm. inversion Hm as [|? k ? ks' Hp Hrest]; subst.
    apply mapM_Some in Hrest.
    destruct p; simpl in Hp; try discriminate; injection Hp as <-;
      simpl; rewrite (IH _ _ Hrest); by rewrite !append_assoc.
Qed.

Lemma getKey_loop_None (params : list Param) (key : string) :
  mapM paramKey params = None → getKey_loop key params = ("", false).
Proof.
  rewrite mapM_None. revert key.
  induction params as [|p params IH]; intros key Hex.
  - by apply Exists_nil in Hex.
  - destruct p; simpl; try done.
    + apply IH. inversion Hex; subst; [discriminate | done].
    + apply IH. inversion Hex; subst; [discriminate | done].
Qed.

Lemma getKey_Some (params : list Param) (ks : list string) :
  mapM paramKey params = Some ks → getKey params = (joinKey ks, true).
Proof. intros Hm. unfold getKey. by rewrite (getKey_loop_Some _ _ _ Hm). Qed.

Lemma getKey_None (params : list Param) :
  mapM paramKey params = None → getKey params = ("", false).
Proof. apply getKey_loop_None. Qed.

Lemma getKey_strings (rule : list string) :
  getKey (PString <$> rule) = (joinKey rule, true).
Proof. apply getKey_Some. by apply mapM_fmap_Some. Qed.

Lemma getShardIdx_lt (s : string) : getShardIdx s < shardPartitions.
Proof.
  unfold getShardIdx, shardPartitions.
  pose proof (Z.mod_pos_bound (Sum32 s) (Z.of_nat 32)). lia.
Qed.

(** C8: [getKey] walks the parameters in order and appends the string
    form of each one (a raw string verbatim, [GetCacheKey] for a cacheable
    parameter) followed by the separator ["$$"], reporting [true]; as soon
    as a tuple holds a parameter of another type the result is the empty
    string and [false], never a partial key. The tuple
    [("alice", "data1", "read")] gives ["alice$$data1$$read$$"]. *)
Theorem getKey_spec :
  (∀ params : list Param,
      getKey params =
        match mapM paramKey params with
        | Some ks => (joinKey ks, true)
        | None => ("", false)
        end)
  ∧ separator = "$$"
  ∧ getKey [PString "alice"; PString "data1"; PString "read"]
    = ("alice$$data1$$read$$", true).
Proof.
  split; [|split; reflexivity].
  intros params. destruct (mapM paramKey params) as [ks|] eqn:Hm.
  - by apply getKey_Some.
  - by apply getKey_None.
Qed.

(** ** Keys of separator-safe tuples *)

Lemma sep_safe_tail (c : ascii) (s : string) :
  sep_safe (String c s) = true → sep_safe s = true.
Proof.
  simpl. destruct (decide (c = "$"%char)); [|done].
  destruct s as [|c' s]; [done|]. by destruct (decide (c' = "$"%char)).
Qed.

Lemma sep_safe_dollar (s x y : string) :
  sep_safe (String "$" s) = true → s +:+ x = String "$" y → False.
Proof.
  simpl. destruct s as [|c' s]; [done|].
  destruct (decide (c' = "$"%char)) as [|Hne]; [done|].
  intros _. rewrite append_cons. intros [= Hc _]. by apply Hne.
Qed.

(** The first separator of a key ends its first string form. *)
Lemma key_head_unique (s1 s2 r1 r2 : string) :
  sep_safe s1 = true → sep_safe s2 = true →
  s1 +:+ separator +:+ r1 = s2 +:+ separator +:+ r2 →
  s1 = s2 ∧ r1 = r2.
Proof.
  unfold separator. revert s2.
  induction s1 as [|c s1 IH]; intros [|c2 s2] H1 H2 Heq.
  - rewrite !append_cons, !append_nil_l in Heq. by injection Heq as ->.
  - rewrite append_nil_l, !append_cons in Heq.
    injection Heq as <- Heq. symmetry in Heq.
    by apply sep_safe_dollar in Heq.
  - rewrite append_nil_l, !append_cons in Heq.
    injection Heq as -> Heq. by apply sep_safe_dollar in Heq.
  - rewrite !append_cons in Heq. injection Heq as -> Heq.
    destruct (IH s2) as [-> ->]; eauto using sep_safe_tail.
Qed.

Lemma joinKey_cons (k : string) (ks : list string) :
  joinKey (k :: ks) = k +:+ separator +:+ joinKey ks.
Proof. reflexivity. Qed.

Lemma joinKey_inj (ks1 ks2 : list string) :
  Forall (λ k, sep_safe k = true) ks1 →
  Forall (λ k, sep_safe k = true) ks2 →
  joinKey ks1 = joinKey ks2 → ks1 = ks2.
Proof.
  intros H1. revert ks2.
  induction H1 as [|k1 ks1 Hk1 _ IH]; intros ks2 H2 Heq.
  - destruct ks2 as [|k2 ks2]; [done|].
    rewrite joinKey_cons in Heq. by destruct k2.
  - destruct H2 as [|k2 ks2 Hk2 H2].
    + rewrite joinKey_cons in Heq. by destruct k1.
    + rewrite !joinKey_cons in Heq.
      apply key_head_unique in Heq as [-> Heq]; [|done..].
      by rewrite (IH ks2).
Qed.

Lemma getKey_applicable (params : list Param) (key : string) :
  getKey params = (key, true) →
  ∃ ks, mapM paramKey params = Some ks ∧ key = joinKey ks.
Proof.
  intros Hk. destruct (mapM paramKey params) as [ks|] eqn:Hm.
  - rewrite (getKey_Some _ _ Hm) in Hk. injection Hk as <-. by exists ks.
  - by rewrite (getKey_None _ Hm) in Hk.
Qed.


Lemma mapM_Some_fmap {A C : Type} (f : A → option C) (l : list A)
    (k : list C) :
  mapM f l = Some k → f <$> l = Some <$> k.
Proof.
  rewrite mapM_Some. induction 1 as [|x y l k Hxy _ IH]; [done|].
  by rewrite !fmap_cons, Hxy, IH.
Qed.

Lemma safe_tuple_forms (params : list Param) (ks : list string) :
  safe_tuple params = true → mapM paramKey params = Some ks →
  Forall (λ k, sep_safe k = true) ks.
Proof.
  unfold safe_tuple. rewrite mapM_Some. intros Hs H2. revert Hs.
  induction H2 as [|p k params ks Hp _ IH]; [done|].
  simpl. rewrite Hp. intros [Hk Hs]%andb_prop. constructor; auto.
Qed.

(** C3, as amended: over applicable tuples whose string forms are
    separator-safe (none holds two consecutive ['$'] or ends in ['$'])
    the key is injective: equal keys force equal lengths and equal
    string forms position by position. *)
Theorem getKey_injective_safe (p1 p2 : list Param) (key : string) :
  safe_tuple p1 = true → safe_tuple p2 = true →
  getKey p1 = (key, true) → getKey p2 = (key, true) →
  length p1 = length p2 ∧ paramKey <$> p1 = paramKey <$> p2.
Proof.
  intros Hs1 Hs2 (ks1 & Hm1 & ->)%getKey_applicable
    (ks2 & Hm2 & Heq)%getKey_applicable.
  apply joinKey_inj in Heq; eauto using safe_tuple_forms. subst ks2.
  split.
  - by rewrite (length_mapM _ _ _ Hm1), (length_mapM _ _ _ Hm2).
  - by rewrite (mapM_Some_fmap _ _ _ Hm1), (mapM_Some_fmap _ _ _ Hm2).
Qed.

(** Two different tuples with the same string forms share their key. *)
Lemma getKey_injective_safe_witness :
  let p1 := [PString "alice"; PString "data1"] in
  let p2 := [PCacheable {| GetCacheKey := "alice" |}; PString "data1"] in
  length p1 = length p2 ∧ paramKey <$> p1 = paramKey <$> p2.
Proof.
  apply (getKey_injective_safe _ _ "alice$$data1$$"); reflexivity.
Defined.

(** C3 fails as stated: a parameter may itself hold the separator, so
    [("alice$$", "data1")] and [("alice", "$$data1")], both applicable
    and of the same length, get the same key. *)
Lemma getKey_collision :
  let p1 := [PString "alice$$"; PString "data1"] in
  let p2 := [PString "alice"; PString "$$data1"] in
  (getKey p1).2 = true ∧ (getKey p2).2 = true
  ∧ (getKey p1).1 = (getKey p2).1
  ∧ ¬ (length p1 = length p2 ∧ paramKey <$> p1 = paramKey <$> p2).
Proof.
  repeat split; try reflexivity. intros [_ Heq]. discriminate Heq.
Qed.

(** ** Single steps of the coordinator *)

Section Steps.
Context {B E : Type} `{!Cache B} `{!Engine E}.
Implicit Types (e : CachedEnforcer B E) (c : B) (key : string).

Lemma bind_Ok {A C} (m : M B E A) (k : A → M B E C) e a e1 t1 :
  m e = (Ok a, e1, t1) → bind m k e = after t1 (k a e1).
Proof. unfold bind. by intros ->. Qed.

Lemma bind_pure {A C} (m : M B E A) (k : A → M B E C) e a :
  m e = (Ok a, e, []) → bind m k e = k a e.
Proof. unfold bind. intros ->. by destruct (k a e) as [[] ?]. Qed.

Lemma bind_Panic {A C} (m : M B E A) (k : A → M B E C) e msg e1 t1 :
  m e = (Panic msg, e1, t1) → bind m k e = (Panic msg, e1, t1).
Proof. unfold bind. by intros ->. Qed.

Lemma with_cache_id e : with_cache e (cache e) = e.
Proof. by destruct e. Qed.

Lemma shard_Get_run e idx key c :
  cache e !! idx = Some c →
  shard_Get idx key e = (Ok (cache_Get c key), e, [CallGet idx key]).
Proof. intros Hc. unfold shard_Get, bind, shard. by rewrite Hc. Qed.

Lemma shard_Set_run e idx key res extra c :
  cache e !! idx = Some c →
  shard_Set idx key res extra e
  = (Ok (cache_Set c key res extra).1,
     with_cache e (<[idx := (cache_Set c key res extra).2]> (cache e)),
     [CallSet idx key res extra]).
Proof. intros Hc. unfold shard_Set, bind, shard. by rewrite Hc. Qed.

Lemma shard_Delete_run e idx key c :
  cache e !! idx = Some c →
  shard_Delete idx key e
  = (Ok (cache_Delete c key).1,
     with_cache e (<[idx := (cache_Delete c key).2]> (cache e)),
     [CallDelete idx key]).
Proof. intros Hc. unfold shard_Delete, bind, shard. by rewrite Hc. Qed.

Lemma shard_Clear_run e idx c :
  cache e !! idx = Some c →
  shard_Clear idx e
  = (Ok (cache_Clear c).1,
     with_cache e (<[idx := (cache_Clear c).2]> (cache e)),
     [CallClear idx]).
Proof. intros Hc. unfold shard_Clear, bind, shard. by rewrite Hc. Qed.

Lemma getCachedResult_run e key c :
  cache e !! getShardIdx key = Some c →
  getCachedResult key e
  = (Ok (cache_Get c key), e,
     [RLock (getShardIdx key); CallGet (getShardIdx key) key;
      RUnlock (getShardIdx key)]).
Proof.
  intros Hc. unfold getCachedResult, bind, defer, emit.
  by rewrite (shard_Get_run _ _ _ _ Hc).
Qed.

Lemma setCachedResult_run e key res extra c :
  cache e !! getShardIdx key = Some c →
  setCachedResult key res extra e
  = (Ok (cache_Set c key res extra).1,
     with_cache e
       (<[getShardIdx key := (cache_Set c key res extra).2]> (cache e)),
     [Lock (getShardIdx key); CallSet (getShardIdx key) key res extra;
      Unlock (getShardIdx key)]).
Proof.
  intros Hc. unfold setCachedResult, bind, defer, emit.
  by rewrite (shard_Set_run _ _ _ _ _ _ Hc).
Qed.

(** The three ways through [Enforce] once a key was derived. *)
Lemma Enforce_enabled e rvals key c :
  enableCache e ≠ 0%Z →
  getKey rvals = (key, true) →
  cache e !! getShardIdx key = Some c →
  Enforce rvals e
  = (bind (getCachedResult key)
       (λ x, match x with
             | (res, err) =>
                 if is_nil err then ret (res, None)
                 else if negb (is_ErrNoSuchKey err) then ret (res, err)
                 else
                   bind (call_Enforce rvals)
                     (λ y, match y with
                           | (res, err) =>
                               if negb (is_nil err) then ret (false, err)
                               else
                                 bind get_expireTime (λ ttl,
                                   bind (setCachedResult key res [ttl])
                                     (λ err, ret (res, err)))
                           end)
             end)) e.
Proof.
  intros Hen Hk Hc. unfold Enforce.
  rewrite (bind_pure LoadInt32_enableCache _ e (enableCache e) eq_refl).
  rewrite decide_False by done. by rewrite Hk.
Qed.

Lemma Enforce_hit e rvals key c res :
  enableCache e ≠ 0%Z →
  getKey rvals = (key, true) →
  cache e !! getShardIdx key = Some c →
  cache_Get c key = (res, None) →
  Enforce rvals e
  = (Ok (res, None), e,
     [RLock (getShardIdx key); CallGet (getShardIdx key) key;
      RUnlock (getShardIdx key)]).
Proof.
  intros Hen Hk Hc Hget. rewrite (Enforce_enabled _ _ _ _ Hen Hk Hc).
  rewrite (bind_Ok _ _ _ _ _ _ (getCachedResult_run _ _ _ Hc)), Hget.
  reflexivity.
Qed.

Lemma Enforce_failure e rvals key c res err :
  enableCache e ≠ 0%Z →
  getKey rvals = (key, true) →
  cache e !! getShardIdx key = Some c →
  cache_Get c key = (res, Some err) →
  err ≠ ErrNoSuchKey →
  Enforce rvals e
  = (Ok (res, Some err), e,
     [RLock (getShardIdx key); CallGet (getShardIdx key) key;
      RUnlock (getShardIdx key)]).
Proof.
  intros Hen Hk Hc Hget Herr. rewrite (Enforce_enabled _ _ _ _ Hen Hk Hc).
  rewrite (bind_Ok _ _ _ _ _ _ (getCachedResult_run _ _ _ Hc)), Hget.
  by destruct err.
Qed.

Lemma Enforce_miss e rvals key c res0 :
  enableCache e ≠ 0%Z →
  getKey rvals = (key, true) →
  cache e !! getShardIdx key = Some c →
  cache_Get c key = (res0, Some ErrNoSuchKey) →
  let idx := getShardIdx key in
  let r := Enforcer_Enforce (Enforcer e) rvals in
  let s := cache_Set c key r.1.1 [expireTime e] in
  Enforce rvals e
  = match r.1.2 with
    | Some err =>
        (Ok (false, Some err), with_Enforcer e r.2,
         [RLock idx; CallGet idx key; RUnlock idx; CallEnforce rvals])
    | None =>
        (Ok (r.1.1, s.1),
         with_cache (with_Enforcer e r.2) (<[idx := s.2]> (cache e)),
         [RLock idx; CallGet idx key; RUnlock idx; CallEnforce rvals;
          Lock idx; CallSet idx key r.1.1 [expireTime e]; Unlock idx])
    end.
Proof.
  intros Hen Hk Hc Hget idx r s.
  rewrite (Enforce_enabled _ _ _ _ Hen Hk Hc).
  rewrite (bind_Ok _ _ _ _ _ _ (getCachedResult_run _ _ _ Hc)), Hget.
  simpl. unfold bind at 1, call_Enforce. fold r.
  destruct r as [[res [err|]] eng'] eqn:Hr; simpl; [done|].
  rewrite (bind_pure get_expireTime _ (with_Enforcer e eng')
             (expireTime e) eq_refl).
  rewrite (bind_Ok _ _ _ _ _ _
             (setCachedResult_run (with_Enforcer e eng') key res
                [expireTime e] c Hc)).
  reflexivity.
Qed.

Lemma Enforce_bypass e rvals :
  enableCache e = 0%Z ∨ (getKey rvals).2 = false →
  Enforce rvals e = call_Enforce rvals e.
Proof.
  intros Hby. unfold Enforce.
  rewrite (bind_pure LoadInt32_enableCache _ e (enableCache e) eq_refl).
  destruct (decide (enableCache e = 0%Z)) as [|Hen]; [done|].
  destruct Hby as [|Hk]; [done|].
  destruct (getKey rvals) as [key ok]. simpl in Hk. by subst ok.
Qed.

End Steps.

(** ** Every enforcer has [shardPartitions] shards *)

Lemma length_NewCachedEnforcer_loop (n : nat) : ∀ cache : list DefaultCache,
  length (NewCachedEnforcer_loop n cache) = length cache + n.
Proof.
  induction n as [|n IH]; intros cache; simpl; [lia|].
  rewrite IH, length_app. simpl. lia.
Qed.

Lemma NewCachedEnforcer_shards {E : Type} (NewEnforcer : list Param → E + error)
    (params : list Param) (e : CachedEnforcer DefaultCache E) :
  (NewCachedEnforcer NewEnforcer params).1 = Some e →
  length (cache e) = shardPartitions ∧ enableCache e = 1%Z.
Proof.
  unfold NewCachedEnforcer. destruct (NewEnforcer params); [|done].
  intros [= <-]. split; [|done].
  exact (length_NewCachedEnforcer_loop shardPartitions []).
Qed.

Section ShardCount.
Context {B E : Type} `{!Cache B} `{!Engine E}.

Lemma keeps_ret {A} (a : A) : keeps_shards (ret (B := B) (E := E) a).
Proof. by intros e. Qed.

Lemma keeps_emit (ev : Event) : keeps_shards (emit (B := B) (E := E) ev).
Proof. by intros e. Qed.

Lemma keeps_lift {A} (r : Result A) :
  keeps_shards (lift (B := B) (E := E) r).
Proof. by intros e. Qed.

Lemma keeps_shard (idx : nat) : keeps_shards (shard (B := B) (E := E) idx).
Proof. intros e. unfold shard. by destruct (cache e !! idx). Qed.

Lemma keeps_set_shard (idx : nat) (c : B) :
  keeps_shards (set_shard (E := E) idx c).
Proof. intros e. simpl. by rewrite length_insert. Qed.

Lemma keeps_bind {A C} (m : M B E A) (k : A → M B E C) :
  keeps_shards m → (∀ a, keeps_shards (k a)) → keeps_shards (bind m k).
Proof.
  intros Hm Hk e. unfold bind. specialize (Hm e).
  destruct (m e) as [[[a|msg] e1] t1]; simpl in *; [|done].
  specialize (Hk a e1). destruct (k a e1) as [[r e2] t2]. simpl in *.
  congruence.
Qed.

Lemma keeps_defer {A} (d : M B E unit) (body : M B E A) :
  keeps_shards d → keeps_shards body → keeps_shards (defer d body).
Proof.
  intros Hd Hbody e. unfold defer. specialize (Hbody e).
  destruct (body e) as [[r e1] t1]. specialize (Hd e1).
  destruct (d e1) as [[u e2] t2]. simpl in *. congruence.
Qed.

Ltac keeps_step :=
  first
    [ apply keeps_ret | apply keeps_emit | apply keeps_lift
    | apply keeps_shard | apply keeps_set_shard
    | by intros ?
    | apply keeps_defer
    | apply keeps_bind; [|intros ?] ].

Ltac keeps := repeat (repeat case_match; keeps_step).

Lemma keeps_shard_Clear (idx : nat) :
  keeps_shards (shard_Clear (B := B) (E := E) idx).
Proof. unfold shard_Clear. keeps. Qed.

Lemma keeps_shard_Delete (idx : nat) (key : string) :
  keeps_shards (shard_Delete (B := B) (E := E) idx key).
Proof. unfold shard_Delete. keeps. Qed.

Lemma keeps_Enforce (rvals : list Param) :
  keeps_shards (Enforce (B := B) (E := E) rvals).
Proof.
  unfold Enforce, getCachedResult, setCachedResult, shard_Get, shard_Set.
  keeps.
Qed.

Lemma keeps_LoadPolicy_loop (n : nat) : ∀ i,
  keeps_shards (LoadPolicy_loop (B := B) (E := E) n i).
Proof.
  induction n as [|n IH]; intros i; simpl; [apply keeps_ret|].
  apply keeps_bind; [apply keeps_shard_Clear|]. intros err.
  destruct (negb (is_nil err)); [apply keeps_ret | apply IH].
Qed.

Lemma keeps_LoadPolicy : keeps_shards (LoadPolicy (B := B) (E := E)).
Proof.
  unfold LoadPolicy. apply keeps_bind; [by intros ?|]. intros enabled.
  apply keeps_bind.
  - case_decide; [apply keeps_LoadPolicy_loop | apply keeps_ret].
  - intros err. destruct (negb (is_nil err)); [apply keeps_ret | by intros ?].
Qed.

Lemma keeps_RemovePolicy (params : list Param) :
  keeps_shards (RemovePolicy (B := B) (E := E) params).
Proof. unfold RemovePolicy, shard_Delete. keeps. Qed.

Lemma keeps_RemovePolicies_loop (rules : list (list string)) : ∀ irule,
  keeps_shards (RemovePolicies_loop (B := B) (E := E) irule rules).
Proof.
  induction rules as [|rule rules IH]; intros irule; simpl;
    [apply keeps_ret|].
  apply keeps_bind; [apply keeps_lift|]. intros irule'.
  destruct (getKey irule') as [key ok].
  apply keeps_bind; [apply keeps_shard_Delete|]. intros err.
  destruct (is_failure err); [apply keeps_ret | apply IH].
Qed.

Lemma keeps_RemovePolicies (rules : list (list string)) :
  keeps_shards (RemovePolicies (B := B) (E := E) rules).
Proof.
  unfold RemovePolicies. apply keeps_bind.
  - destruct rules as [|rules0 rules]; [apply keeps_ret|].
    apply keeps_bind; [by intros ?|]. intros enabled.
    case_decide; [apply keeps_RemovePolicies_loop | apply keeps_ret].
  - intros err. destruct (negb (is_nil err)); [apply keeps_ret | by intros ?].
Qed.

Lemma keeps_InvalidateCache_loop (n : nat) : ∀ i,
  keeps_shards (InvalidateCache_loop (B := B) (E := E) n i).
Proof.
  induction n as [|n IH]; intros i; simpl; [apply keeps_ret|].
  apply keeps_bind; [apply keeps_emit|]. intros _.
  apply keeps_defer; [apply keeps_emit|].
  apply keeps_bind; [apply keeps_shard_Clear|]. intros err.
  destruct (negb (is_nil err)); [apply keeps_ret | apply IH].
Qed.

Lemma keeps_InvalidateCache :
  keeps_shards (InvalidateCache (B := B) (E := E)).
Proof. apply keeps_InvalidateCache_loop. Qed.

Lemma keeps_SetCache (key : string) (c : B) :
  keeps_shards (SetCache (E := E) key c).
Proof.
  intros e. unfold SetCache. case_decide; simpl; [|done].
  by rewrite length_insert.
Qed.

End ShardCount.

(** ** Enforce *)

Section EnforceProperties.
Context {B E : Type} `{!Cache B} `{!Engine E}.
Implicit Types (e : CachedEnforcer B E) (c : B) (key : string).

(** C9: with the enable flag at 0, [Enforce] makes one call, to the
    decision engine, and returns its result as it is; no backend is
    read or written and every shard is left as it was. *)
Theorem Enforce_cache_disabled e rvals :
  enableCache e = 0%Z →
  Enforce rvals e
  = (Ok (Enforcer_Enforce (Enforcer e) rvals).1,
     with_Enforcer e (Enforcer_Enforce (Enforcer e) rvals).2,
     [CallEnforce rvals])
  ∧ cache (Enforce rvals e).1.2 = cache e.
Proof.
  intros Hoff. rewrite Enforce_bypass by auto. done.
Qed.

(** C7: when the lookup fails with an error other than the not-found
    value, [Enforce] returns that error; the only call made is the
    lookup (under its read lock): the decision engine is not invoked
    and the enforcer, with every backend, is unchanged. *)
Theorem Enforce_backend_failure e rvals key c res err :
  enableCache e ≠ 0%Z →
  getKey rvals = (key, true) →
  cache e !! getShardIdx key = Some c →
  cache_Get c key = (res, Some err) →
  err ≠ ErrNoSuchKey →
  let idx := getShardIdx key in
  Enforce rvals e
  = (Ok (res, Some err), e, [RLock idx; CallGet idx key; RUnlock idx])
  ∧ evaluations (Enforce rvals e).2 = 0.
Proof.
  intros Hen Hk Hc Hget Herr idx.
  by rewrite (Enforce_failure _ _ _ _ _ _ Hen Hk Hc Hget Herr).
Qed.

(** C4: on a miss (the lookup reports not-found) the decision engine
    is invoked. If it fails, [Enforce] returns its error, makes no
    [Set] call and leaves every backend unchanged. If it succeeds and
    the [Set] that follows fails, [Enforce] returns the computed
    decision together with the error of that [Set]. Whatever the
    outcome, a miss asks the engine exactly once. *)
Theorem Enforce_miss_errors e rvals key c res0 :
  enableCache e ≠ 0%Z →
  getKey rvals = (key, true) →
  cache e !! getShardIdx key = Some c →
  cache_Get c key = (res0, Some ErrNoSuchKey) →
  let idx := getShardIdx key in
  let lookup := [RLock idx; CallGet idx key; RUnlock idx] in
  (∀ res err eng',
      Enforcer_Enforce (Enforcer e) rvals = (res, Some err, eng') →
      Enforce rvals e
      = (Ok (false, Some err), with_Enforcer e eng',
         lookup ++ [CallEnforce rvals]))
  ∧ (∀ res eng' err c',
      Enforcer_Enforce (Enforcer e) rvals = (res, None, eng') →
      cache_Set c key res [expireTime e] = (Some err, c') →
      Enforce rvals e
      = (Ok (res, Some err),
         with_cache (with_Enforcer e eng') (<[idx := c']> (cache e)),
         lookup ++ [CallEnforce rvals; Lock idx;
                    CallSet idx key res [expireTime e]; Unlock idx]))
  ∧ evaluations (Enforce rvals e).2 = 1.
Proof.
  intros Hen Hk Hc Hget idx lookup.
  pose proof (Enforce_miss _ _ _ _ _ Hen Hk Hc Hget) as Hrun.
  simpl in Hrun. split_and!.
  - intros res err eng' Heng. rewrite Heng in Hrun. exact Hrun.
  - intros res eng' err c' Heng Hset. rewrite Heng in Hrun. simpl in Hrun.
    rewrite Hset in Hrun. exact Hrun.
  - rewrite Hrun.
    by destruct (Enforcer_Enforce (Enforcer e) rvals) as [[res [err|]] eng'].
Qed.

End EnforceProperties.

Lemma Enforce_cache_disabled_witness :
  Enforce alice_request alice_uncached
  = (Ok (true, None), alice_uncached, [CallEnforce alice_request])
  ∧ cache (Enforce alice_request alice_uncached).1.2 = cache alice_uncached.
Proof.
  exact (Enforce_cache_disabled alice_uncached alice_request eq_refl).
Defined.

Lemma Enforce_backend_failure_witness :
  let e := remote_enforcer (fault_at 2 Down) in
  Enforce alice_request e
  = (Ok (false, Some unavailable), e,
     [RLock 2; CallGet 2 "alice$$data1$$read$$"; RUnlock 2])
  ∧ evaluations (Enforce alice_request e).2 = 0.
Proof.
  apply (Enforce_backend_failure (remote_enforcer (fault_at 2 Down))
           alice_request "alice$$data1$$read$$" (mkRemote ∅ Down)
           false unavailable);
    [discriminate | reflexivity | reflexivity | reflexivity | discriminate].
Defined.

Lemma Enforce_miss_errors_witness :
  (let e := remote_enforcer (fault_at 2 ReadOnly) in
   Enforce alice_request e
   = (Ok (true, Some unavailable), e,
      [RLock 2; CallGet 2 "alice$$data1$$read$$"; RUnlock 2;
       CallEnforce alice_request; Lock 2;
       CallSet 2 "alice$$data1$$read$$" true [0%N]; Unlock 2]))
  ∧ (let e := remote_enforcer (fault_at 2 ReadOnly) in
     Enforce [PString "alice"] e
     = (Ok (false, Some invalid_request), e,
        [RLock 7; CallGet 7 "alice$$"; RUnlock 7;
         CallEnforce [PString "alice"]])).
Proof.
  split.
  - destruct (Enforce_miss_errors (remote_enforcer (fault_at 2 ReadOnly))
                alice_request "alice$$data1$$read$$" (mkRemote ∅ ReadOnly)
                false) as (_ & Hset & _);
      [discriminate | reflexivity | reflexivity | reflexivity |].
    exact (Hset true alice_policy unavailable (mkRemote ∅ ReadOnly)
             eq_refl eq_refl).
  - destruct (Enforce_miss_errors (remote_enforcer (fault_at 2 ReadOnly))
                [PString "alice"] "alice$$" (mkRemote ∅ Healthy)
                false) as (Heng & _ & _);
      [discriminate | reflexivity | reflexivity | reflexivity |].
    exact (Heng false invalid_request alice_policy eq_refl).
Defined.

(** ** The clearing loops *)

Section Loops.
Context {B E : Type} `{!Cache B} `{!Engine E}.
Implicit Types (e : CachedEnforcer B E) (b : B) (pre good post : list B).

Lemma with_cache_with_cache e l1 l2 :
  with_cache (with_cache e l1) l2 = with_cache e l2.
Proof. reflexivity. Qed.

Lemma shard_Clear_middle e pre b post :
  cache e = pre ++ b :: post →
  shard_Clear (length pre) e
  = (Ok (cache_Clear b).1,
     with_cache e (pre ++ (cache_Clear b).2 :: post),
     [CallClear (length pre)]).
Proof.
  intros Hc. rewrite (shard_Clear_run e _ b).
  - rewrite Hc, insert_app_r_alt, Nat.sub_diag by lia. done.
  - rewrite Hc. by apply list_lookup_middle.
Qed.

Lemma LoadPolicy_loop_ok good : ∀ pre post e n,
  cache e = pre ++ good ++ post →
  n = length good →
  Forall clears good →
  LoadPolicy_loop n (length pre) e
  = (Ok None, with_cache e (pre ++ cleared good ++ post),
     CallClear <$> seq (length pre) n).
Proof.
  induction good as [|g good IH]; intros pre post e n Hc -> Hok.
  - simpl in *. unfold ret. by rewrite <- Hc, with_cache_id.
  - apply Forall_cons in Hok as [Hg Hok]. simpl.
    rewrite (bind_Ok _ _ _ _ _ _ (shard_Clear_middle e pre g _ Hc)).
    rewrite Hg. simpl.
    replace (S (length pre)) with (length (pre ++ [(cache_Clear g).2]))
      by (rewrite length_app; simpl; lia).
    rewrite (IH _ post); [| by rewrite <- app_assoc | done | done].
    simpl. rewrite with_cache_with_cache, <- app_assoc. done.
Qed.

Lemma LoadPolicy_loop_fail good : ∀ pre b post err e n,
  cache e = pre ++ good ++ b :: post →
  length good < n →
  Forall clears good →
  (cache_Clear b).1 = Some err →
  LoadPolicy_loop n (length pre) e
  = (Ok (Some err),
     with_cache e (pre ++ cleared good ++ (cache_Clear b).2 :: post),
     CallClear <$> seq (length pre) (S (length good))).
Proof.
  induction good as [|g good IH]; intros pre b post err e n Hc Hn Hok Hb.
  - destruct n as [|n]; [simpl in Hn; lia|]. simpl.
    rewrite (bind_Ok _ _ _ _ _ _ (shard_Clear_middle e pre b _ Hc)).
    by rewrite Hb.
  - destruct n as [|n]; [simpl in Hn; lia|].
    apply Forall_cons in Hok as [Hg Hok]. simpl.
    rewrite (bind_Ok _ _ _ _ _ _ (shard_Clear_middle e pre g _ Hc)).
    rewrite Hg. simpl.
    replace (S (length pre)) with (length (pre ++ [(cache_Clear g).2]))
      by (rewrite length_app; simpl; lia).
    rewrite (IH _ b post err);
      [| by rewrite <- app_assoc | simpl in Hn; lia | done | done].
    simpl. rewrite with_cache_with_cache, <- app_assoc. done.
Qed.

Lemma InvalidateCache_loop_ok good : ∀ pre post e n,
  cache e = pre ++ good ++ post →
  n = length good →
  Forall clears good →
  InvalidateCache_loop n (length pre) e
  = (Ok None, with_cache e (pre ++ cleared good ++ post),
     locked_clears (length pre) n).
Proof.
  induction good as [|g good IH]; intros pre post e n Hc -> Hok.
  - simpl in *. unfold ret. by rewrite <- Hc, with_cache_id.
  - apply Forall_cons in Hok as [Hg Hok]. simpl.
    unfold bind at 1, emit at 1, defer at 1. simpl.
    rewrite (bind_Ok _ _ _ _ _ _ (shard_Clear_middle e pre g _ Hc)).
    rewrite Hg. simpl.
    replace (S (length pre)) with (length (pre ++ [(cache_Clear g).2]))
      by (rewrite length_app; simpl; lia).
    rewrite (IH _ post); [| by rewrite <- app_assoc | done | done].
    simpl. rewrite with_cache_with_cache, <- app_assoc.
    rewrite length_app. simpl. by rewrite Nat.add_1_r.
Qed.

Lemma InvalidateCache_loop_fail good : ∀ pre b post err e n,
  cache e = pre ++ good ++ b :: post →
  length good < n →
  Forall clears good →
  (cache_Clear b).1 = Some err →
  InvalidateCache_loop n (length pre) e
  = (Ok (Some err),
     with_cache e (pre ++ cleared good ++ (cache_Clear b).2 :: post),
     locked_clears (length pre) (S (length good))).
Proof.
  induction good as [|g good IH]; intros pre b post err e n Hc Hn Hok Hb.
  - destruct n as [|n]; [simpl in Hn; lia|]. simpl.
    unfold bind at 1, emit at 1, defer at 1. simpl.
    rewrite (bind_Ok _ _ _ _ _ _ (shard_Clear_middle e pre b _ Hc)).
    by rewrite Hb.
  - destruct n as [|n]; [simpl in Hn; lia|].
    apply Forall_cons in Hok as [Hg Hok]. simpl.
    unfold bind at 1, emit at 1, defer at 1. simpl.
    rewrite (bind_Ok _ _ _ _ _ _ (shard_Clear_middle e pre g _ Hc)).
    rewrite Hg. simpl.
    replace (S (length pre)) with (length (pre ++ [(cache_Clear g).2]))
      by (rewrite length_app; simpl; lia).
    rewrite (IH _ b post err);
      [| by rewrite <- app_assoc | simpl in Hn; lia | done | done].
    simpl. rewrite with_cache_with_cache, <- app_assoc.
    rewrite length_app. simpl. by rewrite Nat.add_1_r.
Qed.

End Loops.

(** Which shards a run of locked clears touches. *)
Lemma elem_of_locked_clears (k : nat) : ∀ i j,
  (CallClear j ∈ locked_clears i k ↔ i ≤ j < i + k)
  ∧ (Lock j ∈ locked_clears i k ↔ i ≤ j < i + k)
  ∧ (Unlock j ∈ locked_clears i k ↔ i ≤ j < i + k).
Proof.
  induction k as [|k IH]; intros i j; simpl.
  - rewrite !elem_of_nil. lia.
  - destruct (IH (S i) j) as (IHc & IHl & IHu).
    rewrite !elem_of_cons, !elem_of_app, !list_elem_of_singleton.
    rewrite IHc, IHl, IHu.
    split_and!; (split; [intros [?|[?|[?|?]]]; simplify_eq; lia|]).
    all: intros ?; destruct (decide (i = j)) as [->|]; [by eauto 6|].
    all: right; right; left; lia.
Qed.

(** The first backend whose [Clear] fails. *)
Lemma first_failing_clear {B : Type} `{!Cache B} (bs : list B) :
  Exists (λ b, ¬ clears b) bs →
  ∃ good b post err,
    bs = good ++ b :: post ∧ Forall clears good
    ∧ (cache_Clear b).1 = Some err.
Proof.
  induction bs as [|b bs IH]; intros Hex; [by apply Exists_nil in Hex|].
  destruct (cache_Clear b).1 as [err|] eqn:Hb.
  - exists [], b, bs, err. by repeat split.
  - destruct IH as (good & b' & post & err & -> & Hgood & Hb').
    + apply Exists_cons in Hex as [Hex|]; [|done].
      unfold clears in Hex. by rewrite Hb in Hex.
    + exists (b :: good), b', post, err. repeat split; [|done].
      by constructor.
Qed.

(** ** LoadPolicy and InvalidateCache *)

Section ClearingProperties.
Context {B E : Type} `{!Cache B} `{!Engine E}.
Implicit Types (e : CachedEnforcer B E) (b : B) (good post : list B).

Lemma LoadPolicy_run_fail e good b post err :
  enableCache e ≠ 0%Z →
  length (cache e) = shardPartitions →
  cache e = good ++ b :: post →
  Forall clears good →
  (cache_Clear b).1 = Some err →
  LoadPolicy e
  = (Ok (Some err),
     with_cache e (cleared good ++ (cache_Clear b).2 :: post),
     CallClear <$> seq 0 (S (length good))).
Proof.
  intros Hen Hlen Hc Hgood Hb. unfold LoadPolicy.
  rewrite (bind_pure LoadInt32_enableCache _ e (enableCache e) eq_refl).
  rewrite decide_True by done.
  rewrite (bind_Ok _ _ _ _ _ _
             (LoadPolicy_loop_fail good [] b post err e shardPartitions
                Hc ltac:(rewrite Hc, length_app in Hlen; simpl in Hlen; lia)
                Hgood Hb)).
  simpl. by rewrite app_nil_r.
Qed.

(** C6: [LoadPolicy] clears the shards in ascending order before it
    reloads. With caching enabled, if some shard's [Clear] returns an
    error (the first that does), [LoadPolicy] returns that error, the
    engine is left alone and its reload is not invoked; when every
    [Clear] succeeds, or when caching is disabled, [LoadPolicy] invokes
    the reload and returns its result. *)
Theorem LoadPolicy_clears_first e :
  length (cache e) = shardPartitions →
  let r := Enforcer_LoadPolicy (Enforcer e) in
  (enableCache e = 0%Z →
     LoadPolicy e = (Ok r.1, with_Enforcer e r.2, [CallLoadPolicy]))
  ∧ (enableCache e ≠ 0%Z → Forall clears (cache e) →
     LoadPolicy e
     = (Ok r.1, with_Enforcer (with_cache e (cleared (cache e))) r.2,
        (CallClear <$> seq 0 shardPartitions) ++ [CallLoadPolicy]))
  ∧ (enableCache e ≠ 0%Z → Exists (λ b, ¬ clears b) (cache e) →
     ∃ good b post err,
       cache e = good ++ b :: post ∧ Forall clears good
       ∧ (cache_Clear b).1 = Some err
       ∧ LoadPolicy e
         = (Ok (Some err),
            with_cache e (cleared good ++ (cache_Clear b).2 :: post),
            CallClear <$> seq 0 (S (length good)))
       ∧ (CallLoadPolicy ∉ (LoadPolicy e).2)
       ∧ Enforcer (LoadPolicy e).1.2 = Enforcer e).
Proof.
  intros Hlen r. split_and!.
  - intros Hoff. unfold LoadPolicy.
    rewrite (bind_pure LoadInt32_enableCache _ e (enableCache e) eq_refl).
    rewrite decide_False by (intros Hne; by apply Hne).
    unfold bind, ret, call_LoadPolicy. simpl. done.
  - intros Hen Hok. unfold LoadPolicy.
    rewrite (bind_pure LoadInt32_enableCache _ e (enableCache e) eq_refl).
    rewrite decide_True by done.
    rewrite (bind_Ok _ _ _ _ _ _
               (LoadPolicy_loop_ok (cache e) [] [] e shardPartitions
                  ltac:(by rewrite app_nil_r) ltac:(done) Hok)).
    simpl. rewrite app_nil_r. done.
  - intros Hen (good & b & post & err & Hc & Hgood & Hb)%first_failing_clear.
    exists good, b, post, err.
    rewrite (LoadPolicy_run_fail e good b post err Hen Hlen Hc Hgood Hb).
    split_and!; try done.
    intros (i & Hi & _)%list_elem_of_fmap. discriminate Hi.
Qed.

(** C2, as amended: when some shard's [Clear] fails, [InvalidateCache]
    returns the error of the first such shard at once. [Clear] was
    invoked, under the shard's write lock, on exactly the shards up to
    and including that one, none after it; every lock taken is
    released before the call returns. *)
Theorem InvalidateCache_first_error e good b post err :
  length (cache e) = shardPartitions →
  cache e = good ++ b :: post →
  Forall clears good →
  (cache_Clear b).1 = Some err →
  InvalidateCache e
  = (Ok (Some err),
     with_cache e (cleared good ++ (cache_Clear b).2 :: post),
     locked_clears 0 (S (length good)))
  ∧ (∀ j, CallClear j ∈ (InvalidateCache e).2 ↔ (j ≤ length good)%nat)
  ∧ (∀ j, Lock j ∈ (InvalidateCache e).2
          ↔ Unlock j ∈ (InvalidateCache e).2).
Proof.
  intros Hlen Hc Hgood Hb. unfold InvalidateCache.
  pose proof (InvalidateCache_loop_fail good [] b post err e
                shardPartitions Hc
                ltac:(rewrite Hc, length_app in Hlen; simpl in Hlen; lia)
                Hgood Hb) as Hrun.
  change (length (@nil B)) with 0 in Hrun. rewrite Hrun.
  simpl fst; simpl snd. split_and!; [done| |].
  - intros j.
    destruct (elem_of_locked_clears (S (length good)) 0 j) as (-> & _ & _).
    lia.
  - intros j.
    destruct (elem_of_locked_clears (S (length good)) 0 j) as (_ & -> & ->).
    done.
Qed.

End ClearingProperties.

Lemma LoadPolicy_clears_first_witness :
  LoadPolicy alice_enforcer
  = (Ok None, alice_enforcer,
     (CallClear <$> seq 0 shardPartitions) ++ [CallLoadPolicy])
  ∧ ∃ good b post err,
      cache readonly_shard3 = good ++ b :: post ∧ Forall clears good
      ∧ (cache_Clear b).1 = Some err
      ∧ LoadPolicy readonly_shard3
        = (Ok (Some err),
           with_cache readonly_shard3
             (cleared good ++ (cache_Clear b).2 :: post),
           CallClear <$> seq 0 (S (length good)))
      ∧ (CallLoadPolicy ∉ (LoadPolicy readonly_shard3).2)
      ∧ Enforcer (LoadPolicy readonly_shard3).1.2 = Enforcer readonly_shard3.
Proof.
  split.
  - destruct (LoadPolicy_clears_first alice_enforcer eq_refl)
      as (_ & Hok & _).
    apply Hok; [discriminate|].
    apply (bool_decide_unpack _). vm_compute. exact I.
  - destruct (LoadPolicy_clears_first readonly_shard3 eq_refl)
      as (_ & _ & Hfail).
    apply Hfail; [discriminate|].
    apply (bool_decide_unpack _). vm_compute. exact I.
Defined.

Lemma InvalidateCache_first_error_witness :
  InvalidateCache readonly_shard3
  = (Ok (Some unavailable), readonly_shard3,
     [Lock 0; CallClear 0; Lock 1; CallClear 1; Lock 2; CallClear 2;
      Lock 3; CallClear 3; Unlock 3; Unlock 2; Unlock 1; Unlock 0])
  ∧ (∀ j, CallClear j ∈ (InvalidateCache readonly_shard3).2 ↔ (j ≤ 3)%nat)
  ∧ (∀ j, Lock j ∈ (InvalidateCache readonly_shard3).2
          ↔ Unlock j ∈ (InvalidateCache readonly_shard3).2).
Proof.
  assert (Forall clears (replicate 3 (mkRemote ∅ Healthy))) as Hgood.
  { apply (bool_decide_unpack _). vm_compute. exact I. }
  exact (InvalidateCache_first_error readonly_shard3
           (replicate 3 (mkRemote ∅ Healthy)) (mkRemote ∅ ReadOnly)
           (replicate 28 (mkRemote ∅ Healthy)) unavailable
           eq_refl eq_refl Hgood eq_refl).
Defined.

(** C2 fails as stated: with the backend of shard [3] read-only, the
    call returns that shard's error and [Clear] is never invoked on
    shards [4] to [31]. *)
Lemma InvalidateCache_stops_at_first_error :
  (InvalidateCache readonly_shard3).1.1 = Ok (Some unavailable)
  ∧ (CallClear 3 ∈ (InvalidateCache readonly_shard3).2)
  ∧ (CallClear 4 ∉ (InvalidateCache readonly_shard3).2)
  ∧ ¬ (∀ j, j < shardPartitions →
            CallClear j ∈ (InvalidateCache readonly_shard3).2).
Proof.
  assert (CallClear 4 ∉ (InvalidateCache readonly_shard3).2) as Hskip.
  { apply (bool_decide_unpack _). vm_compute. exact I. }
  split_and!; [reflexivity | | done |].
  - apply (bool_decide_unpack _). vm_compute. exact I.
  - intros Hall. apply Hskip, Hall. unfold shardPartitions. lia.
Qed.

(** ** The example backends keep their promises *)

#[global] Instance DefaultCache_KeepsEntries : KeepsEntries DefaultCache.
Proof.
  split.
  - intros c key res extra c' [= <-]. simpl. by rewrite lookup_insert_eq.
  - intros c key _. simpl. destruct (c !! key) eqn:Hc; simpl.
    + by rewrite lookup_delete_eq.
    + by rewrite Hc.
  - intros c key key' Hne. simpl. destruct (c !! key) eqn:Hc; simpl.
    + by rewrite lookup_delete_ne.
    + done.
Qed.

#[global] Instance DefaultCache_Reliable : Reliable DefaultCache.
Proof.
  split.
  - intros c key. simpl. by destruct (c !! key).
  - done.
  - intros c key. simpl. by destruct (c !! key).
Qed.

#[global] Instance Remote_KeepsEntries : KeepsEntries Remote.
Proof.
  split.
  - intros [m f] key res extra c'. simpl. destruct f; [|done..].
    intros [= <-]. simpl. by rewrite lookup_insert_eq.
  - intros [m f] key. simpl. destruct f; [|done..]. simpl. intros _.
    destruct (m !! key) eqn:Hm; simpl.
    + by rewrite lookup_delete_eq.
    + by rewrite Hm.
  - intros [m f] key key' Hne. simpl. destruct f; [|done..]. simpl.
    destruct (m !! key) eqn:Hm; simpl.
    + by rewrite lookup_delete_ne.
    + done.
Qed.

(** ** RemovePolicy *)

Section RemovePolicyProperties.
Context {B E : Type} `{!Cache B} `{!Engine E} `{!KeepsEntries B}.
Implicit Types (e : CachedEnforcer B E) (c : B) (key : string).

Lemma RemovePolicy_run e params key c :
  enableCache e ≠ 0%Z →
  getKey params = (key, true) →
  cache e !! getShardIdx key = Some c →
  let idx := getShardIdx key in
  let d := cache_Delete c key in
  let r := Enforcer_RemovePolicy (Enforcer e) params in
  let e' := with_cache e (<[idx := d.2]> (cache e)) in
  RemovePolicy params e
  = if is_failure d.1
    then (Ok (false, d.1), e', [CallDelete idx key])
    else (Ok r.1, with_Enforcer e' r.2,
          [CallDelete idx key; CallRemovePolicy params]).
Proof.
  intros Hen Hk Hc idx d r e'. unfold RemovePolicy.
  rewrite (bind_pure LoadInt32_enableCache _ e (enableCache e) eq_refl).
  rewrite decide_True by done. rewrite Hk.
  unfold bind at 1.
  rewrite (bind_Ok _ _ _ _ _ _ (shard_Delete_run e idx key c Hc)).
  fold d e'. unfold call_RemovePolicy.
  by destruct (d.1) as [[]|].
Qed.

(** C5, as amended: with caching enabled, [RemovePolicy] on a tuple
    with a key issues one backend call, [Delete] of that key on the
    shard that owns it. When that [Delete] succeeds or reports
    not-found, the entry of the key is gone, every other entry of every
    shard reads as before, and the removal is delegated to the engine,
    whose outcome is returned whatever it is. When the [Delete] fails
    otherwise, [RemovePolicy] returns [false] with that error and the
    engine is not invoked. A tuple without a key is delegated at once. *)
Theorem RemovePolicy_deletes_key e params :
  enableCache e ≠ 0%Z →
  let r := Enforcer_RemovePolicy (Enforcer e) params in
  (∀ key c,
      getKey params = (key, true) →
      cache e !! getShardIdx key = Some c →
      let idx := getShardIdx key in
      let d := cache_Delete c key in
      let e' := with_cache e (<[idx := d.2]> (cache e)) in
      (is_failure d.1 = false →
         RemovePolicy params e
         = (Ok r.1, with_Enforcer e' r.2,
            [CallDelete idx key; CallRemovePolicy params])
         ∧ (cache_Get d.2 key).2 = Some ErrNoSuchKey)
      ∧ (is_failure d.1 = true →
         RemovePolicy params e
         = (Ok (false, d.1), e', [CallDelete idx key]))
      ∧ (∀ j c_j key',
           cache e !! j = Some c_j → key' ≠ key →
           ∃ c_j', cache e' !! j = Some c_j'
                   ∧ cache_Get c_j' key' = cache_Get c_j key'))
  ∧ ((getKey params).2 = false →
     RemovePolicy params e
     = (Ok r.1, with_Enforcer e r.2, [CallRemovePolicy params])).
Proof.
  intros Hen r. split.
  - intros key c Hk Hc idx d e'.
    pose proof (RemovePolicy_run e params key c Hen Hk Hc) as Hrun.
    simpl in Hrun. fold idx d e' r in Hrun. split_and!.
    + intros Hd. rewrite Hd in Hrun. split; [done|].
      by apply Delete_then_Get.
    + intros Hd. by rewrite Hd in Hrun.
    + intros j c_j key' Hj Hne. destruct (decide (j = idx)) as [->|Hji].
      * exists d.2. split.
        -- apply list_lookup_insert_eq. by eapply lookup_lt_Some.
        -- assert (c_j = c) as -> by (unfold idx in Hj; congruence).
           by apply Delete_frame.
      * exists c_j. split; [|done].
        simpl. by rewrite list_lookup_insert_ne.
  - intros Hk. unfold RemovePolicy.
    rewrite (bind_pure LoadInt32_enableCache _ e (enableCache e) eq_refl).
    rewrite decide_True by done.
    destruct (getKey params) as [key ok]. simpl in Hk. subst ok.
    unfold bind, ret, call_RemovePolicy. simpl. done.
Qed.

End RemovePolicyProperties.

Lemma RemovePolicy_deletes_key_witness :
  RemovePolicy alice_request alice_cached
  = (Ok (true, None), with_Enforcer alice_enforcer [],
     [CallDelete 2 "alice$$data1$$read$$"; CallRemovePolicy alice_request])
  ∧ RemovePolicy [PString "alice"; POther 7] alice_cached
    = (Ok (false, Some invalid_request), alice_cached,
       [CallRemovePolicy [PString "alice"; POther 7]]).
Proof.
  split.
  - destruct (RemovePolicy_deletes_key alice_cached alice_request)
      as [Hkey _]; [discriminate|].
    destruct (Hkey "alice$$data1$$read$$"
                {["alice$$data1$$read$$" := true]} eq_refl eq_refl)
      as ([Hrun _] & _); [reflexivity|].
    exact Hrun.
  - destruct (RemovePolicy_deletes_key alice_cached
                [PString "alice"; POther 7]) as [_ Hnokey]; [discriminate|].
    exact (Hnokey eq_refl).
Defined.

(** C5 fails as stated: when the backend's [Delete] fails with an error
    other than not-found, [RemovePolicy] returns that error and never
    delegates to the engine (which would have removed the rule). *)
Lemma RemovePolicy_backend_failure :
  RemovePolicy alice_request readonly_all
  = (Ok (false, Some unavailable), readonly_all,
     [CallDelete 2 "alice$$data1$$read$$"])
  ∧ (CallRemovePolicy alice_request
       ∉ (RemovePolicy alice_request readonly_all).2)
  ∧ (Enforcer_RemovePolicy (Enforcer readonly_all) alice_request).1
    = (true, None).
Proof.
  split_and!; [reflexivity | | reflexivity].
  apply (bool_decide_unpack _). vm_compute. exact I.
Qed.

(** ** Deciding twice *)

Section EnforceTwice.
Context {B E : Type} `{!Cache B} `{!Engine E}.
Context `{!KeepsEntries B} `{!Reliable B}.
Implicit Types (e : CachedEnforcer B E) (c : B) (key : string).

Lemma evaluations_app (t1 t2 : list Event) :
  evaluations (t1 ++ t2) = evaluations t1 + evaluations t2.
Proof. unfold evaluations. by rewrite filter_app, length_app. Qed.

Lemma reliable_Get c key :
  (∃ res, cache_Get c key = (res, None))
  ∨ (∃ res, cache_Get c key = (res, Some ErrNoSuchKey)).
Proof.
  pose proof (Get_reliable c key) as Hget.
  destruct (cache_Get c key) as [res [[]|]]; simpl in Hget; eauto.
  discriminate.
Qed.

(** C1, as amended: with caching enabled, a backend whose operations
    succeed and that keeps what it stores, and an evaluation of the
    string-only tuple that does not fail, two calls of [Enforce] in a
    row return the same decision without error; the engine is asked at
    most once over the two calls and not at all by the second. *)
Theorem Enforce_twice e (p : list string) :
  enableCache e ≠ 0%Z →
  length (cache e) = shardPartitions →
  (Enforcer_Enforce (Enforcer e) (PString <$> p)).1.2 = None →
  let first := Enforce (PString <$> p) e in
  let second := Enforce (PString <$> p) first.1.2 in
  ∃ res,
    first.1.1 = Ok (res, None) ∧ second.1.1 = Ok (res, None)
    ∧ evaluations (first.2 ++ second.2) ≤ 1
    ∧ evaluations second.2 = 0.
Proof.
  intros Hen Hlen Heng first second. subst second first.
  pose proof (getKey_strings p) as Hk. set (key := joinKey p) in *.
  destruct (lookup_lt_is_Some_2 (cache e) (getShardIdx key)) as [c Hc].
  { rewrite Hlen. apply getShardIdx_lt. }
  destruct (reliable_Get c key) as [[res Hget]|[res0 Hget]].
  - rewrite (Enforce_hit e _ key c res Hen Hk Hc Hget). simpl.
    rewrite (Enforce_hit e _ key c res Hen Hk Hc Hget). simpl.
    exists res. split_and!; [done | done | | done].
    unfold evaluations. simpl. lia.
  - rewrite (Enforce_miss e _ key c res0 Hen Hk Hc Hget). simpl.
    destruct (Enforcer_Enforce (Enforcer e) (PString <$> p))
      as [[res err] eng'] eqn:Hr.
    simpl in Heng. subst err. simpl.
    pose proof (Set_reliable c key res [expireTime e]) as Hset.
    destruct (cache_Set c key res [expireTime e]) as [serr c'] eqn:Hs.
    simpl in Hset. subst serr. simpl.
    erewrite (Enforce_hit _ _ key c' res); simpl.
    + exists res. split_and!; [done | done | | done].
      unfold evaluations. simpl. lia.
    + done.
    + done.
    + apply list_lookup_insert_eq. rewrite Hlen. apply getShardIdx_lt.
    + by eapply Set_then_Get.
Qed.

End EnforceTwice.

Lemma Enforce_twice_witness :
  let first := Enforce alice_request alice_enforcer in
  let second := Enforce alice_request first.1.2 in
  ∃ res,
    first.1.1 = Ok (res, None) ∧ second.1.1 = Ok (res, None)
    ∧ evaluations (first.2 ++ second.2) ≤ 1
    ∧ evaluations second.2 = 0.
Proof.
  apply (Enforce_twice alice_enforcer ["alice"; "data1"; "read"]);
    [discriminate | reflexivity | reflexivity].
Defined.

(** C1 fails as stated: a failed evaluation is not cached. The engine
    rejects the one-parameter request [("alice")]; with caching enabled
    and the default backends, both calls ask the engine. So do two
    calls for the running request once caching is disabled. *)
Lemma Enforce_twice_failed_evaluation :
  (let first := Enforce [PString "alice"] alice_enforcer in
   let second := Enforce [PString "alice"] first.1.2 in
   first.1.1 = Ok (false, Some invalid_request)
   ∧ second.1.1 = Ok (false, Some invalid_request)
   ∧ evaluations (first.2 ++ second.2) = 2
   ∧ ¬ evaluations (first.2 ++ second.2) ≤ 1)
  ∧ (let first := Enforce alice_request alice_uncached in
     let second := Enforce alice_request first.1.2 in
     evaluations (first.2 ++ second.2) = 2).
Proof.
  split; [cbv zeta; split_and!|]; [reflexivity..| |reflexivity].
  vm_compute. lia.
Qed.

(** ** RemovePolicies *)

Lemma fill_irule_spec (rule : list string) : ∀ (irule : list Param) (i : nat),
  i ≤ length irule →
  fill_irule irule i rule
  = if decide (i + length rule ≤ length irule)
    then Ok (take i irule ++ (PString <$> rule)
               ++ drop (i + length rule) irule)
    else Panic "index out of range".
Proof.
  induction rule as [|param rule IH]; intros irule i Hi; simpl.
  - rewrite decide_True by lia. by rewrite Nat.add_0_r, take_drop.
  - destruct (decide (i < length irule)) as [Hlt|Hge].
    + rewrite IH by (rewrite length_insert; lia).
      rewrite length_insert.
      destruct (decide (S i + length rule ≤ length irule)) as [Hfit|Hlong].
      * rewrite decide_True by lia.
        rewrite (take_S_r _ _ (PString param))
          by (by apply list_lookup_insert_eq).
        rewrite take_insert_ge by lia. rewrite drop_insert_lt by lia.
        rewrite <- app_assoc. simpl.
        by replace (i + S (length rule)) with (S i + length rule) by lia.
      * by rewrite decide_False by lia.
    + by rewrite decide_False by lia.
Qed.

Lemma fill_irule_fits (irule : list Param) (rule : list string) :
  length rule ≤ length irule →
  fill_irule irule 0 rule = Ok (irule_after irule rule).
Proof.
  intros Hfit. rewrite fill_irule_spec by lia.
  by rewrite decide_True by (simpl; lia).
Qed.

Lemma fill_irule_long (irule : list Param) (rule : list string) :
  length irule < length rule →
  fill_irule irule 0 rule = Panic "index out of range".
Proof.
  intros Hlong. rewrite fill_irule_spec by lia.
  by rewrite decide_False by (simpl; lia).
Qed.

Lemma length_irule_after (irule : list Param) (rule : list string) :
  length rule ≤ length irule →
  length (irule_after irule rule) = length irule.
Proof.
  intros Hfit. unfold irule_after.
  rewrite length_app, length_fmap, length_drop. lia.
Qed.

Lemma length_foldl_irule_after (fit : list (list string)) :
  ∀ irule : list Param,
    Forall (λ rule, length rule ≤ length irule) fit →
    length (foldl irule_after irule fit) = length irule.
Proof.
  induction fit as [|rule fit IH]; intros irule Hfit; [done|].
  apply Forall_cons in Hfit as [Hrule Hfit]. simpl.
  rewrite IH; rewrite length_irule_after by done; done.
Qed.

Lemma irule_after_strings (ss rule : list string) :
  irule_after (PString <$> ss) rule
  = PString <$> (rule ++ drop (length rule) ss).
Proof. unfold irule_after. by rewrite fmap_app, fmap_drop. Qed.

Lemma irule_after_first (rule : list string) :
  irule_after (replicate (length rule) PNil) rule = PString <$> rule.
Proof.
  unfold irule_after.
  rewrite drop_ge by (by rewrite length_replicate). by rewrite app_nil_r.
Qed.

(** Past the first rule the buffer holds strings only: a rule, then
    what an earlier rule left behind it. *)
Lemma irules_strings (rules : list (list string)) :
  ∀ (ss : list string) (i : nat) (rule : list string),
    Forall (λ rule, length rule ≤ length ss) rules →
    rules !! i = Some rule →
    ∃ prev, length prev = length ss
            ∧ irules (PString <$> ss) rules !! i
              = Some (PString <$> (rule ++ drop (length rule) prev)).
Proof.
  induction rules as [|rule0 rules IH]; intros ss i rule Hfit Hi; [done|].
  apply Forall_cons in Hfit as [Hrule0 Hfit].
  destruct i as [|i]; simpl in *.
  - injection Hi as ->. exists ss. by rewrite irule_after_strings.
  - rewrite irule_after_strings.
    assert (length (rule0 ++ drop (length rule0) ss) = length ss) as Hlen.
    { rewrite length_app, length_drop. lia. }
    destruct (IH (rule0 ++ drop (length rule0) ss) i rule) as (prev & ? & ?);
      [by rewrite Hlen | done |].
    exists prev. split; [congruence | done].
Qed.

Lemma joinKey_app (ks1 ks2 : list string) :
  joinKey (ks1 ++ ks2) = joinKey ks1 +:+ joinKey ks2.
Proof.
  induction ks1 as [|k ks1 IH]; [done|].
  rewrite <- app_comm_cons, !joinKey_cons, IH. by rewrite !append_assoc.
Qed.

Lemma joinKey_leftover (rule leftover : list string) :
  leftover ≠ [] → joinKey (rule ++ leftover) ≠ joinKey rule.
Proof.
  intros Hne Heq. rewrite joinKey_app in Heq.
  rewrite <- (append_nil_r (joinKey rule)) in Heq at 2.
  apply (inj (String.append _)) in Heq.
  destruct leftover as [|k leftover]; [done|].
  rewrite joinKey_cons in Heq. by destruct k.
Qed.

Section RemovePoliciesProperties.
Context {B E : Type} `{!Cache B} `{!Engine E}.
(** No [Delete] reports a backend failure. *)
Context (Delete_ok : ∀ (c : B) (key : string),
            is_failure (cache_Delete c key).1 = false).
Implicit Types (e : CachedEnforcer B E) (irule : list Param).
Implicit Types (fit rest : list (list string)).

Lemma after_nil {A} (x : Result A * CachedEnforcer B E * list Event) :
  after [] x = x.
Proof. by destruct x as [[] ?]. Qed.

Lemma after_after {A} (t1 t2 : list Event)
    (x : Result A * CachedEnforcer B E * list Event) :
  after t1 (after t2 x) = after (t1 ++ t2) x.
Proof. destruct x as [[] ?]. simpl. by rewrite app_assoc. Qed.

Lemma RemovePolicies_loop_fit fit : ∀ irule rest e,
  length (cache e) = shardPartitions →
  Forall (λ rule, length rule ≤ length irule) fit →
  ∃ e', RemovePolicies_loop irule (fit ++ rest) e
        = after (delete_call <$> irules irule fit)
            (RemovePolicies_loop (foldl irule_after irule fit) rest e')
        ∧ length (cache e') = shardPartitions
        ∧ Enforcer e' = Enforcer e.
Proof.
  induction fit as [|rule fit IH]; intros irule rest e Hlen Hfit.
  - exists e. by rewrite after_nil.
  - apply Forall_cons in Hfit as [Hrule Hfit]. simpl.
    rewrite (bind_pure (lift (fill_irule irule 0 rule)) _ e
               (irule_after irule rule))
      by (unfold lift; by rewrite fill_irule_fits).
    unfold delete_call at 1.
    destruct (getKey (irule_after irule rule)) as [key ok]. simpl.
    destruct (lookup_lt_is_Some_2 (cache e) (getShardIdx key)) as [c Hc].
    { rewrite Hlen. apply getShardIdx_lt. }
    rewrite (bind_Ok _ _ _ _ _ _ (shard_Delete_run e _ key c Hc)).
    rewrite Delete_ok.
    destruct (IH (irule_after irule rule) rest
                (with_cache e
                   (<[getShardIdx key := (cache_Delete c key).2]> (cache e))))
      as (e' & -> & Hlen' & Heng).
    + simpl. by rewrite length_insert.
    + by rewrite length_irule_after.
    + exists e'. by rewrite after_after.
Qed.

Lemma RemovePolicies_loop_long irule long rest e :
  length irule < length long →
  RemovePolicies_loop irule (long :: rest) e
  = (Panic "index out of range", e, []).
Proof.
  intros Hlong. simpl. apply bind_Panic.
  unfold lift. by rewrite fill_irule_long.
Qed.

Lemma RemovePolicies_enabled e rules0 rules :
  enableCache e ≠ 0%Z →
  RemovePolicies (rules0 :: rules) e
  = bind (RemovePolicies_loop (replicate (length rules0) PNil)
            (rules0 :: rules))
      (λ err, if negb (is_nil err) then ret (false, err)
              else call_RemovePolicies (rules0 :: rules)) e.
Proof.
  intros Hen. unfold RemovePolicies. unfold bind at 1.
  rewrite (bind_pure LoadInt32_enableCache _ e (enableCache e) eq_refl).
  by rewrite decide_True by done.
Qed.

Lemma RemovePolicies_run e rules0 fit rest :
  enableCache e ≠ 0%Z →
  length (cache e) = shardPartitions →
  Forall (λ rule, length rule ≤ length rules0) fit →
  ∃ e' irule,
    length irule = length rules0
    ∧ Enforcer e' = Enforcer e
    ∧ RemovePolicies (rules0 :: fit ++ rest) e
      = match after (delete_call
                       <$> irules (replicate (length rules0) PNil)
                             (rules0 :: fit))
                (RemovePolicies_loop irule rest e') with
        | (Ok err, e1, t1) =>
            after t1
              ((if negb (is_nil err) then ret (false, err)
                else call_RemovePolicies (rules0 :: fit ++ rest)) e1)
        | (Panic msg, e1, t1) => (Panic msg, e1, t1)
        end.
Proof.
  intros Hen Hlen Hfit.
  assert (Forall (λ rule, length rule ≤ length (replicate (length rules0) PNil))
            (rules0 :: fit)) as Hfit0.
  { rewrite length_replicate. by constructor. }
  destruct (RemovePolicies_loop_fit (rules0 :: fit) _ rest e Hlen Hfit0)
    as (e' & Hloop & _ & Heng).
  exists e', (foldl irule_after (replicate (length rules0) PNil)
                (rules0 :: fit)).
  split_and!; [| done |].
  - by rewrite length_foldl_irule_after, length_replicate.
  - rewrite RemovePolicies_enabled by done. unfold bind at 1.
    change (rules0 :: fit ++ rest) with ((rules0 :: fit) ++ rest) at 1.
    by rewrite Hloop.
Qed.

(** C10, as amended: with caching enabled, [RemovePolicies] sizes its
    buffer by the first rule alone. While no [Delete] reports a backend
    failure, the rules are processed in order: each rule no longer than
    the first gets one [Delete], for the key of the buffer; a rule
    shorter than the first leaves the tail of the buffer as earlier
    rules wrote it, so that [Delete] is for the key of the rule
    followed by those leftovers, which is not the key of the rule; and
    the first rule longer than the first makes the call panic with an
    index out of range, the engine not being invoked. *)
Theorem RemovePolicies_buffer_of_first_rule e rules0 fit rest :
  enableCache e ≠ 0%Z →
  length (cache e) = shardPartitions →
  Forall (λ rule, length rule ≤ length rules0) fit →
  let rules := rules0 :: fit ++ rest in
  let bufs := irules (replicate (length rules0) PNil) (rules0 :: fit) in
  let run := RemovePolicies rules e in
  (∃ t, run.2 = (delete_call <$> bufs) ++ t)
  ∧ (∀ long rest',
       rest = long :: rest' → length rules0 < length long →
       run.1.1 = Panic "index out of range"
       ∧ run.2 = delete_call <$> bufs)
  ∧ (∀ i rule,
       fit !! i = Some rule → length rule < length rules0 →
       ∃ prev leftover,
         length prev = length rules0
         ∧ leftover = drop (length rule) prev ∧ leftover ≠ []
         ∧ bufs !! S i = Some (PString <$> (rule ++ leftover))
         ∧ run.2 !! S i
           = Some (CallDelete (getShardIdx (joinKey (rule ++ leftover)))
                     (joinKey (rule ++ leftover)))
         ∧ joinKey (rule ++ leftover) ≠ joinKey rule
         ∧ (getKey (PString <$> rule)).1 = joinKey rule)
  ∧ (rest = [] →
     run.1.1 = Ok (Enforcer_RemovePolicies (Enforcer e) rules).1
     ∧ run.2 = (delete_call <$> bufs) ++ [CallRemovePolicies rules]).
Proof.
  intros Hen Hlen Hfit rules bufs run.
  destruct (RemovePolicies_run e rules0 fit rest Hen Hlen Hfit)
    as (e' & irule & Hirule & Heng & Hrun).
  fold rules bufs run in Hrun.
  assert (∃ t, run.2 = (delete_call <$> bufs) ++ t) as Hprefix.
  { rewrite Hrun.
    destruct (RemovePolicies_loop irule rest e') as [[[err|msg] e1] t1];
      cbn [after].
    - destruct ((if negb (is_nil err) then ret (false, err)
                 else call_RemovePolicies rules) e1) as [[r2 e2] t2].
      cbn [after snd]. exists (t1 ++ t2). by rewrite app_assoc.
    - by exists t1. }
  split_and!; [done | | |].
  - intros long rest' -> Hlong. rewrite Hrun.
    rewrite RemovePolicies_loop_long by lia. simpl.
    by rewrite app_nil_r.
  - intros i rule Hi Hshort.
    destruct (irules_strings fit rules0 i rule Hfit Hi) as (prev & Hprev & Hb).
    exists prev, (drop (length rule) prev).
    assert (bufs !! S i
            = Some (PString <$> (rule ++ drop (length rule) prev))) as Hbuf.
    { unfold bufs. simpl. by rewrite irule_after_first. }
    split_and!; [done | done | | done | | |].
    + intros Hnil%(f_equal length). rewrite length_drop in Hnil.
      simpl in Hnil. lia.
    + destruct Hprefix as [t ->].
      rewrite lookup_app_l
        by (rewrite length_fmap; by eapply lookup_lt_Some).
      rewrite list_lookup_fmap, Hbuf. simpl. unfold delete_call.
      by rewrite getKey_strings.
    + apply joinKey_leftover.
      intros Hnil%(f_equal length). rewrite length_drop in Hnil.
      simpl in Hnil. lia.
    + by rewrite getKey_strings.
  - intros ->. rewrite Hrun. simpl.
    unfold call_RemovePolicies. simpl. by rewrite Heng, !app_nil_r.
Qed.

End RemovePoliciesProperties.

Lemma RemovePolicies_buffer_of_first_rule_witness :
  let run :=
    RemovePolicies [["a"; "b"]; ["c"]; ["d"]; ["x"; "y"; "z"]] alice_enforcer in
  (run.1.1 = Panic "index out of range"
   ∧ run.2 = [CallDelete 2 "a$$b$$"; CallDelete 8 "c$$b$$";
              CallDelete 3 "d$$b$$"])
  ∧ run.2 !! 1 ≠ Some (CallDelete (getShardIdx "c$$") "c$$").
Proof.
  assert (Forall (λ rule : list string, length rule ≤ length ["a"; "b"])
            [["c"]; ["d"]]) as Hfit.
  { apply (bool_decide_unpack _). vm_compute. exact I. }
  destruct (RemovePolicies_buffer_of_first_rule
              (Delete_reliable (B := DefaultCache)) alice_enforcer
              ["a"; "b"] [["c"]; ["d"]] [["x"; "y"; "z"]]
              ltac:(discriminate) eq_refl Hfit) as (_ & Hlong & Hshort & _).
  split.
  - apply (Hlong ["x"; "y"; "z"] [] eq_refl). simpl. lia.
  - destruct (Hshort 0 ["c"] eq_refl ltac:(simpl; lia))
      as (prev & leftover & _ & _ & _ & _ & Hcall & Hne & _).
    intros Hrule. apply Hne.
    pose proof (eq_trans (eq_sym Hcall) Hrule) as Heq.
    by injection Heq as _ Heq.
Defined.

(** C10 fails as stated. A later rule longer than the first does not
    always end in the out-of-range panic: when the [Delete] for an
    earlier rule fails, the call returns that error first. And a later
    rule shorter than the first gets no key at all when a longer rule
    before it has already stopped the call. *)
Lemma RemovePolicies_error_before_panic :
  (let run := RemovePolicies [["a"]; ["b"; "c"]] readonly_all in
   run.1.1 = Ok (false, Some unavailable)
   ∧ run.2 = [CallDelete (getShardIdx "a$$") "a$$"])
  ∧ (let run :=
       RemovePolicies [["a"; "b"]; ["x"; "y"; "z"]; ["c"]] alice_enforcer in
     run.1.1 = Panic "index out of range"
     ∧ run.2 = [CallDelete 2 "a$$b$$"]).
Proof. repeat split; reflexivity. Qed.

(** * Further properties of the coordinator *)

(** ** Hashing and keys *)

Lemma fnv32a_write_range (s : string) : ∀ h : Z,
  (0 ≤ h < 2 ^ 32)%Z → (0 ≤ fnv32a_write h s < 2 ^ 32)%Z.
Proof.
  induction s as [|c s IH]; intros h Hh; simpl; [done|].
  apply IH. unfold fnv32a_byte. apply Z.mod_pos_bound. lia.
Qed.

(** X1: the hash of a key is a 32-bit value and its shard index, the
    low five bits of that hash, always names one of the
    [shardPartitions] shards. *)
Theorem getShardIdx_range (s : string) :
  (0 ≤ Sum32 s < 2 ^ 32)%Z
  ∧ getShardIdx s < shardPartitions
  ∧ Z.of_nat (getShardIdx s) = Z.land (Sum32 s) 31.
Proof.
  assert (0 ≤ Sum32 s < 2 ^ 32)%Z as Hsum.
  { apply fnv32a_write_range. unfold offset32. lia. }
  split; [exact Hsum|]. split; [apply getShardIdx_lt|].
  unfold getShardIdx, shardPartitions.
  change 31%Z with (Z.ones 5). rewrite Z.land_ones by lia.
  change (Z.of_nat 32) with (2 ^ 5)%Z.
  rewrite Z2Nat.id; [done|]. apply Z.mod_pos_bound. lia.
Qed.

(** X2: the key depends on the string forms only: two tuples with the
    same string forms, position by position, get the same key and the
    same applicability, whether a form comes from a raw string or from
    [GetCacheKey]. *)
Theorem getKey_same_forms (p1 p2 : list Param) :
  paramKey <$> p1 = paramKey <$> p2 → getKey p1 = getKey p2.
Proof.
  intros Hforms.
  assert (mapM paramKey p1 = mapM paramKey p2) as Hm.
  { revert p2 Hforms. induction p1 as [|x p1 IH]; intros [|y p2] Hforms;
      try done.
    rewrite !fmap_cons in Hforms. injection Hforms as Hxy Hrest.
    simpl. rewrite Hxy. by rewrite (IH p2 Hrest). }
  destruct (mapM paramKey p1) as [ks|] eqn:H1; symmetry in Hm.
  - by rewrite (getKey_Some _ _ H1), (getKey_Some _ _ Hm).
  - by rewrite (getKey_None _ H1), (getKey_None _ Hm).
Qed.

Lemma getKey_same_forms_witness :
  getKey [PCacheable {| GetCacheKey := "alice" |}; PString "data1"]
  = getKey [PString "alice"; PCacheable {| GetCacheKey := "data1" |}].
Proof. apply getKey_same_forms. reflexivity. Defined.

Lemma mapM_paramKey_app (p1 p2 : list Param) :
  mapM paramKey (p1 ++ p2)
  = match mapM paramKey p1, mapM paramKey p2 with
    | Some ks1, Some ks2 => Some (ks1 ++ ks2)
    | _, _ => None
    end.
Proof.
  induction p1 as [|x p1 IH]; simpl.
  - by destruct (mapM paramKey p2).
  - rewrite IH. destruct (paramKey x); simpl; [|done].
    by destruct (mapM paramKey p1), (mapM paramKey p2).
Qed.

(** X3: keys compose by concatenation: when both parts of a tuple are
    applicable the key of the whole is the key of the first part
    followed by the key of the second; when either part is not, the
    whole is not applicable and its key is empty. *)
Theorem getKey_app (p1 p2 : list Param) :
  getKey (p1 ++ p2)
  = if (getKey p1).2 && (getKey p2).2
    then ((getKey p1).1 +:+ (getKey p2).1, true)
    else ("", false).
Proof.
  pose proof (mapM_paramKey_app p1 p2) as Happ.
  destruct (mapM paramKey p1) as [ks1|] eqn:H1;
    [destruct (mapM paramKey p2) as [ks2|] eqn:H2|].
  - rewrite (getKey_Some _ _ Happ), (getKey_Some _ _ H1),
      (getKey_Some _ _ H2). simpl. by rewrite joinKey_app.
  - rewrite (getKey_None _ Happ), (getKey_None _ H2). simpl.
    by rewrite andb_false_r.
  - by rewrite (getKey_None _ Happ), (getKey_None _ H1).
Qed.

(** ** Construction and switches *)

(** X4: [NewCachedEnforcer] hands on the error of [NewEnforcer] with no
    enforcer; otherwise it returns an enforcer around the new engine
    with caching enabled, expiry time zero and [shardPartitions] empty
    default backends. *)
Theorem NewCachedEnforcer_fresh {E : Type}
    (NewEnforcer : list Param → E + error) (params : list Param) :
  match NewEnforcer params with
  | inr err => NewCachedEnforcer NewEnforcer params = (None, Some err)
  | inl eng =>
      ∃ e, NewCachedEnforcer NewEnforcer params = (Some e, None)
           ∧ Enforcer e = eng ∧ enableCache e = 1%Z ∧ expireTime e = 0%N
           ∧ cache e = replicate shardPartitions ∅
  end.
Proof.
  unfold NewCachedEnforcer. destruct (NewEnforcer params) as [eng|err];
    [|done].
  eexists. split; [done|]. by split_and!.
Qed.

Section Switches.
Context {B E : Type} `{!Cache B} `{!Engine E}.
Implicit Types (e : CachedEnforcer B E) (c : B) (key : string).

(** X5: a hit is served from the cache: when the shard of the key holds
    a decision, [Enforce] returns it with a nil error, the engine is
    not invoked and the enforcer is unchanged. *)
Theorem Enforce_cached_hit e rvals key c res :
  enableCache e ≠ 0%Z →
  getKey rvals = (key, true) →
  cache e !! getShardIdx key = Some c →
  cache_Get c key = (res, None) →
  let idx := getShardIdx key in
  Enforce rvals e
  = (Ok (res, None), e, [RLock idx; CallGet idx key; RUnlock idx])
  ∧ evaluations (Enforce rvals e).2 = 0.
Proof.
  intros Hen Hk Hc Hget idx.
  by rewrite (Enforce_hit _ _ _ _ _ Hen Hk Hc Hget).
Qed.

(** X6: a tuple holding a parameter that is neither a string nor
    cacheable is never cached: [Enforce] asks the engine, returns its
    result as it is and makes no backend call, caching enabled or not. *)
Theorem Enforce_inapplicable e rvals :
  Exists (λ p, paramKey p = None) rvals →
  Enforce rvals e
  = (Ok (Enforcer_Enforce (Enforcer e) rvals).1,
     with_Enforcer e (Enforcer_Enforce (Enforcer e) rvals).2,
     [CallEnforce rvals])
  ∧ cache (Enforce rvals e).1.2 = cache e.
Proof.
  intros Hex%mapM_None%getKey_None.
  rewrite Enforce_bypass by (right; by rewrite Hex). done.
Qed.

(** X7: switching the cache off and on again loses nothing: whatever is
    decided in between, the backends, and with them every cached
    decision, and the expiry time are as before, and neither switch
    makes a call. *)
Theorem EnableCache_toggle e rvals :
  let off := EnableCache false e in
  let ran := Enforce rvals off.1.2 in
  let on := EnableCache true ran.1.2 in
  enableCache off.1.2 = 0%Z ∧ off.2 = []
  ∧ cache ran.1.2 = cache e ∧ ran.2 = [CallEnforce rvals]
  ∧ enableCache on.1.2 = 1%Z ∧ on.2 = []
  ∧ cache on.1.2 = cache e ∧ expireTime on.1.2 = expireTime e.
Proof.
  intros off ran on. subst on ran.
  rewrite (Enforce_bypass off.1.2 rvals) by (by left). done.
Qed.

(** X8: [SetExpireTime] touches nothing but the expiry time, and the
    next decision stored after it carries the new value: on a miss with
    a successful evaluation the [Set] call is made with that expiry
    time. *)
Theorem SetExpireTime_next_Set e t rvals key c res0 :
  enableCache e ≠ 0%Z →
  getKey rvals = (key, true) →
  cache e !! getShardIdx key = Some c →
  cache_Get c key = (res0, Some ErrNoSuchKey) →
  (Enforcer_Enforce (Enforcer e) rvals).1.2 = None →
  let e1 := (SetExpireTime t e).1.2 in
  let idx := getShardIdx key in
  let res := (Enforcer_Enforce (Enforcer e) rvals).1.1 in
  cache e1 = cache e ∧ enableCache e1 = enableCache e
  ∧ Enforcer e1 = Enforcer e ∧ expireTime e1 = t
  ∧ (Enforce rvals e1).2
    = [RLock idx; CallGet idx key; RUnlock idx; CallEnforce rvals;
       Lock idx; CallSet idx key res [t]; Unlock idx].
Proof.
  intros Hen Hk Hc Hget Heng e1 idx res. split_and!; try done.
  rewrite (Enforce_miss e1 rvals key c res0 Hen Hk Hc Hget).
  subst res. simpl in *.
  destruct (Enforcer_Enforce (Enforcer e) rvals) as [[r err] eng'].
  simpl in *. by subst err.
Qed.

(** X9: [SetCache] swaps the backend of the shard that owns the key and
    of no other shard, without a call or a panic; from then on every
    lookup of a key of that shard is answered by the new backend. *)
Theorem SetCache_replaces_owner e key c :
  length (cache e) = shardPartitions →
  let idx := getShardIdx key in
  let e1 := with_cache e (<[idx := c]> (cache e)) in
  SetCache key c e = (Ok tt, e1, [])
  ∧ cache e1 !! idx = Some c
  ∧ (∀ j, j ≠ idx → cache e1 !! j = cache e !! j)
  ∧ (∀ key', getShardIdx key' = idx →
       getCachedResult key' e1
       = (Ok (cache_Get c key'), e1,
          [RLock idx; CallGet idx key'; RUnlock idx])).
Proof.
  intros Hlen idx e1.
  assert (idx < length (cache e)) as Hidx.
  { rewrite Hlen. apply getShardIdx_lt. }
  assert (cache e1 !! idx = Some c) as Hc.
  { by apply list_lookup_insert_eq. }
  split_and!; [| done | |].
  - unfold SetCache. fold idx. by rewrite decide_True.
  - intros j Hj. simpl. by rewrite list_lookup_insert_ne.
  - intros key' Hkey'. rewrite <- Hkey' in *.
    by rewrite (getCachedResult_run e1 key' c Hc).
Qed.

(** X10: what [setCachedResult] stores, [getCachedResult] finds: after
    a store that the backend accepts, the lookup of the same key
    returns the stored decision with a nil error. *)
Theorem cached_result_round_trip `{!KeepsEntries B} e key res extra c :
  cache e !! getShardIdx key = Some c →
  (cache_Set c key res extra).1 = None →
  (setCachedResult key res extra e).1.1 = Ok None
  ∧ (getCachedResult key (setCachedResult key res extra e).1.2).1.1
    = Ok (res, None).
Proof.
  intros Hc Hset. rewrite (setCachedResult_run e key res extra c Hc).
  destruct (cache_Set c key res extra) as [serr c'] eqn:Hs.
  simpl in Hset. subst serr. simpl. split; [done|].
  rewrite (getCachedResult_run _ key c').
  - simpl. by rewrite (Set_then_Get c key res extra c' Hs).
  - simpl. apply list_lookup_insert_eq. by eapply lookup_lt_Some.
Qed.

(** X11: shards are independent: storing a decision for a key leaves
    the lookup of every key of another shard as it was, whatever the
    backends are. *)
Theorem setCachedResult_other_shard e key res extra key' :
  length (cache e) = shardPartitions →
  getShardIdx key' ≠ getShardIdx key →
  (getCachedResult key' (setCachedResult key res extra e).1.2).1.1
  = (getCachedResult key' e).1.1.
Proof.
  intros Hlen Hne.
  destruct (lookup_lt_is_Some_2 (cache e) (getShardIdx key)) as [c Hc].
  { rewrite Hlen. apply getShardIdx_lt. }
  destruct (lookup_lt_is_Some_2 (cache e) (getShardIdx key')) as [c' Hc'].
  { rewrite Hlen. apply getShardIdx_lt. }
  rewrite (setCachedResult_run e key res extra c Hc). simpl.
  rewrite (getCachedResult_run e key' c' Hc').
  erewrite getCachedResult_run; [done|].
  simpl. by rewrite list_lookup_insert_ne.
Qed.

End Switches.

Lemma Enforce_cached_hit_witness :
  Enforce alice_request alice_cached
  = (Ok (true, None), alice_cached,
     [RLock 2; CallGet 2 "alice$$data1$$read$$"; RUnlock 2])
  ∧ evaluations (Enforce alice_request alice_cached).2 = 0.
Proof.
  exact (Enforce_cached_hit alice_cached alice_request
           "alice$$data1$$read$$" {["alice$$data1$$read$$" := true]} true
           ltac:(discriminate) eq_refl eq_refl eq_refl).
Defined.

Lemma Enforce_inapplicable_witness :
  Enforce [PString "alice"; POther 7] alice_cached
  = (Ok (false, Some invalid_request), alice_cached,
     [CallEnforce [PString "alice"; POther 7]])
  ∧ cache (Enforce [PString "alice"; POther 7] alice_cached).1.2
    = cache alice_cached.
Proof.
  assert (Exists (λ p, paramKey p = None) [PString "alice"; POther 7])
    as Hother.
  { apply (bool_decide_unpack _). vm_compute. exact I. }
  exact (Enforce_inapplicable alice_cached [PString "alice"; POther 7]
           Hother).
Defined.

Lemma SetExpireTime_next_Set_witness :
  (Enforce alice_request (SetExpireTime 60 alice_enforcer).1.2).2
  = [RLock 2; CallGet 2 "alice$$data1$$read$$"; RUnlock 2;
     CallEnforce alice_request; Lock 2;
     CallSet 2 "alice$$data1$$read$$" true [60%N]; Unlock 2].
Proof.
  apply (SetExpireTime_next_Set alice_enforcer 60 alice_request
           "alice$$data1$$read$$" ∅ false
           ltac:(discriminate) eq_refl eq_refl eq_refl eq_refl).
Defined.

Lemma SetCache_replaces_owner_witness :
  let key := "alice$$data1$$read$$" in
  let c : DefaultCache := {[key := false]} in
  (SetCache key c alice_enforcer).1.1 = Ok tt
  ∧ (getCachedResult key (SetCache key c alice_enforcer).1.2).1.1
    = Ok (false, None).
Proof.
  intros key c.
  destruct (SetCache_replaces_owner alice_enforcer key c eq_refl)
    as (Hrun & _ & _ & Hget).
  split.
  - by rewrite Hrun.
  - rewrite Hrun. cbn [fst snd]. by rewrite (Hget key eq_refl).
Defined.

Lemma cached_result_round_trip_witness :
  let key := "bob$$data2$$write$$" in
  (setCachedResult key false [0%N] alice_enforcer).1.1 = Ok None
  ∧ (getCachedResult key
       (setCachedResult key false [0%N] alice_enforcer).1.2).1.1
    = Ok (false, None).
Proof.
  exact (cached_result_round_trip alice_enforcer "bob$$data2$$write$$"
           false [0%N] ∅ eq_refl eq_refl).
Defined.

Lemma setCachedResult_other_shard_witness :
  (getCachedResult "alice$$data1$$read$$"
     (setCachedResult "bob$$data2$$write$$" false [0%N] alice_cached).1.2).1.1
  = Ok (true, None).
Proof.
  exact (setCachedResult_other_shard alice_cached "bob$$data2$$write$$"
           false [0%N] "alice$$data1$$read$$" eq_refl
           ltac:(vm_compute; discriminate)).
Defined.

(** ** Invalidation and what follows it *)

#[global] Instance DefaultCache_ClearEmpties : ClearEmpties DefaultCache.
Proof. split. intros c key _. simpl. by rewrite lookup_empty. Qed.

#[global] Instance Remote_ClearEmpties : ClearEmpties Remote.
Proof.
  split. intros [m f] key. simpl. destruct f; [|done..]. intros _. simpl.
  by rewrite lookup_empty.
Qed.

Section Invalidation.
Context {B E : Type} `{!Cache B} `{!Engine E}.
Implicit Types (e : CachedEnforcer B E) (c : B) (key : string).

(** A lookup that finds nothing makes [Enforce] ask the engine once. *)
Lemma Enforce_not_found e rvals key c :
  enableCache e ≠ 0%Z →
  getKey rvals = (key, true) →
  cache e !! getShardIdx key = Some c →
  (cache_Get c key).2 = Some ErrNoSuchKey →
  evaluations (Enforce rvals e).2 = 1.
Proof.
  intros Hen Hk Hc Hget.
  destruct (cache_Get c key) as [res0 err] eqn:Hg. simpl in Hget. subst err.
  rewrite (Enforce_miss e rvals key c res0 Hen Hk Hc Hg). simpl.
  by destruct (Enforcer_Enforce (Enforcer e) rvals) as [[res [err|]] eng'].
Qed.

Lemma lookup_cleared (bs : list B) (j : nat) (c : B) :
  cleared bs !! j = Some c →
  ∃ b, bs !! j = Some b ∧ c = (cache_Clear b).2.
Proof.
  unfold cleared. rewrite list_lookup_fmap.
  destruct (bs !! j) as [b|]; [|done]. intros [= <-]. by exists b.
Qed.

(** X12: when every [Clear] succeeds, [InvalidateCache] returns nil
    after clearing each of the [shardPartitions] shards once, in
    ascending order and under its write lock, and releasing every lock;
    it does so whether caching is enabled or not, and leaves the engine
    alone. *)
Theorem InvalidateCache_all_cleared e :
  length (cache e) = shardPartitions →
  Forall clears (cache e) →
  InvalidateCache e
  = (Ok None, with_cache e (cleared (cache e)),
     locked_clears 0 shardPartitions)
  ∧ (∀ j, CallClear j ∈ (InvalidateCache e).2 ↔ j < shardPartitions)
  ∧ (∀ j, Lock j ∈ (InvalidateCache e).2
          ↔ Unlock j ∈ (InvalidateCache e).2).
Proof.
  intros Hlen Hok. unfold InvalidateCache.
  pose proof (InvalidateCache_loop_ok (cache e) [] [] e shardPartitions
                ltac:(by rewrite app_nil_r) ltac:(done) Hok) as Hrun.
  change (length (@nil B)) with 0 in Hrun. rewrite Hrun.
  rewrite app_nil_r. cbn [fst snd app]. split_and!; [done| |].
  - intros j.
    destruct (elem_of_locked_clears shardPartitions 0 j) as (-> & _ & _).
    lia.
  - intros j.
    destruct (elem_of_locked_clears shardPartitions 0 j) as (_ & -> & ->).
    done.
Qed.

(** X13: after a successful [InvalidateCache] nothing is cached: the
    next [Enforce] of any tuple with a key misses and asks the engine
    exactly once. *)
Theorem InvalidateCache_then_Enforce `{!ClearEmpties B} e rvals key :
  length (cache e) = shardPartitions →
  Forall clears (cache e) →
  enableCache e ≠ 0%Z →
  getKey rvals = (key, true) →
  evaluations (Enforce rvals (InvalidateCache e).1.2).2 = 1.
Proof.
  intros Hlen Hok Hen Hk. unfold InvalidateCache.
  pose proof (InvalidateCache_loop_ok (cache e) [] [] e shardPartitions
                ltac:(by rewrite app_nil_r) ltac:(done) Hok) as Hrun.
  change (length (@nil B)) with 0 in Hrun. rewrite Hrun.
  rewrite app_nil_r. cbn [fst snd app].
  destruct (lookup_lt_is_Some_2 (cleared (cache e)) (getShardIdx key))
    as [c Hc].
  { unfold cleared. rewrite length_fmap, Hlen. apply getShardIdx_lt. }
  destruct (lookup_cleared _ _ _ Hc) as (b & Hb & ->).
  apply (Enforce_not_found _ rvals key (cache_Clear b).2); [done..|].
  apply Clear_then_Get. by eapply (Forall_lookup_1 clears).
Qed.

Lemma LoadPolicy_run_ok e :
  length (cache e) = shardPartitions →
  enableCache e ≠ 0%Z →
  Forall clears (cache e) →
  LoadPolicy e
  = (Ok (Enforcer_LoadPolicy (Enforcer e)).1,
     with_Enforcer (with_cache e (cleared (cache e)))
       (Enforcer_LoadPolicy (Enforcer e)).2,
     (CallClear <$> seq 0 shardPartitions) ++ [CallLoadPolicy]).
Proof.
  intros Hlen Hen Hok. unfold LoadPolicy.
  rewrite (bind_pure LoadInt32_enableCache _ e (enableCache e) eq_refl).
  rewrite decide_True by done.
  rewrite (bind_Ok _ _ _ _ _ _
             (LoadPolicy_loop_ok (cache e) [] [] e shardPartitions
                ltac:(by rewrite app_nil_r) ltac:(done) Hok)).
  simpl. rewrite app_nil_r. done.
Qed.

(** X14: a reload drops every cached decision, whether the engine's
    reload then succeeds or fails: after [LoadPolicy] with caching
    enabled and every [Clear] succeeding, the backends are the cleared
    ones and the next [Enforce] of any tuple with a key asks the engine
    exactly once. *)
Theorem LoadPolicy_drops_decisions `{!ClearEmpties B} e rvals key :
  length (cache e) = shardPartitions →
  Forall clears (cache e) →
  enableCache e ≠ 0%Z →
  getKey rvals = (key, true) →
  cache (LoadPolicy e).1.2 = cleared (cache e)
  ∧ evaluations (Enforce rvals (LoadPolicy e).1.2).2 = 1.
Proof.
  intros Hlen Hok Hen Hk. rewrite (LoadPolicy_run_ok e Hlen Hen Hok).
  cbn [fst snd]. split; [done|].
  destruct (lookup_lt_is_Some_2 (cleared (cache e)) (getShardIdx key))
    as [c Hc].
  { unfold cleared. rewrite length_fmap, Hlen. apply getShardIdx_lt. }
  destruct (lookup_cleared _ _ _ Hc) as (b & Hb & ->).
  apply (Enforce_not_found _ rvals key (cache_Clear b).2); [done..|].
  apply Clear_then_Get. by eapply (Forall_lookup_1 clears).
Qed.

(** X15: removing a rule invalidates its decision: after
    [RemovePolicy] of a tuple with a key, its [Delete] not failing, the
    next [Enforce] of that tuple misses and asks the engine exactly
    once. *)
Theorem RemovePolicy_then_Enforce `{!KeepsEntries B} e params key c :
  enableCache e ≠ 0%Z →
  getKey params = (key, true) →
  cache e !! getShardIdx key = Some c →
  is_failure (cache_Delete c key).1 = false →
  evaluations (Enforce params (RemovePolicy params e).1.2).2 = 1.
Proof.
  intros Hen Hk Hc Hd.
  pose proof (RemovePolicy_run e params key c Hen Hk Hc) as Hrun.
  simpl in Hrun. rewrite Hd in Hrun. rewrite Hrun. cbn [fst snd].
  apply (Enforce_not_found _ params key (cache_Delete c key).2);
    [done | done | | by apply Delete_then_Get].
  simpl. apply list_lookup_insert_eq. by eapply lookup_lt_Some.
Qed.

(** X16: with caching disabled [RemovePolicy] only delegates: it makes
    no backend call and returns the engine's outcome. *)
Theorem RemovePolicy_cache_disabled e params :
  enableCache e = 0%Z →
  RemovePolicy params e
  = (Ok (Enforcer_RemovePolicy (Enforcer e) params).1,
     with_Enforcer e (Enforcer_RemovePolicy (Enforcer e) params).2,
     [CallRemovePolicy params]).
Proof.
  intros Hoff. unfold RemovePolicy.
  rewrite (bind_pure LoadInt32_enableCache _ e (enableCache e) eq_refl).
  rewrite decide_False by (intros Hne; by apply Hne).
  unfold bind, ret, call_RemovePolicy. simpl. done.
Qed.

(** X17: with caching disabled, or for an empty list of rules,
    [RemovePolicies] only delegates: no buffer is filled, so rules of
    any lengths pass without a panic, no backend call is made and the
    engine's outcome is returned. *)
Theorem RemovePolicies_without_cache e rules :
  enableCache e = 0%Z ∨ rules = [] →
  RemovePolicies rules e
  = (Ok (Enforcer_RemovePolicies (Enforcer e) rules).1,
     with_Enforcer e (Enforcer_RemovePolicies (Enforcer e) rules).2,
     [CallRemovePolicies rules]).
Proof.
  intros Hskip. unfold RemovePolicies.
  destruct rules as [|rules0 rules].
  - unfold bind, ret, call_RemovePolicies. simpl. done.
  - destruct Hskip as [Hoff|]; [|done]. unfold bind at 1.
    rewrite (bind_pure LoadInt32_enableCache _ e (enableCache e) eq_refl).
    rewrite decide_False by (intros Hne; by apply Hne).
    unfold ret, call_RemovePolicies. simpl. done.
Qed.

End Invalidation.

Lemma InvalidateCache_all_cleared_witness :
  let e := (EnableCache false alice_cached).1.2 in
  InvalidateCache e
  = (Ok None, alice_uncached, locked_clears 0 shardPartitions)
  ∧ (∀ j, CallClear j ∈ (InvalidateCache e).2 ↔ j < shardPartitions)
  ∧ (∀ j, Lock j ∈ (InvalidateCache e).2 ↔ Unlock j ∈ (InvalidateCache e).2).
Proof.
  assert (Forall clears (cache (EnableCache false alice_cached).1.2))
    as Hok.
  { apply (bool_decide_unpack _). vm_compute. exact I. }
  exact (InvalidateCache_all_cleared (EnableCache false alice_cached).1.2
           eq_refl Hok).
Defined.

Lemma InvalidateCache_then_Enforce_witness :
  evaluations (Enforce alice_request (InvalidateCache alice_cached).1.2).2
  = 1.
Proof.
  assert (Forall clears (cache alice_cached)) as Hok.
  { apply (bool_decide_unpack _). vm_compute. exact I. }
  exact (InvalidateCache_then_Enforce alice_cached alice_request
           "alice$$data1$$read$$" eq_refl Hok ltac:(discriminate) eq_refl).
Defined.

Lemma LoadPolicy_drops_decisions_witness :
  cache (LoadPolicy alice_cached).1.2 = cache alice_enforcer
  ∧ evaluations (Enforce alice_request (LoadPolicy alice_cached).1.2).2 = 1.
Proof.
  assert (Forall clears (cache alice_cached)) as Hok.
  { apply (bool_decide_unpack _). vm_compute. exact I. }
  exact (LoadPolicy_drops_decisions alice_cached alice_request
           "alice$$data1$$read$$" eq_refl Hok ltac:(discriminate) eq_refl).
Defined.

Lemma RemovePolicy_then_Enforce_witness :
  evaluations
    (Enforce alice_request (RemovePolicy alice_request alice_cached).1.2).2
  = 1.
Proof.
  exact (RemovePolicy_then_Enforce alice_cached alice_request
           "alice$$data1$$read$$" {["alice$$data1$$read$$" := true]}
           ltac:(discriminate) eq_refl eq_refl eq_refl).
Defined.

Lemma RemovePolicy_cache_disabled_witness :
  RemovePolicy alice_request alice_uncached
  = (Ok (true, None), with_Enforcer alice_uncached [],
     [CallRemovePolicy alice_request]).
Proof.
  exact (RemovePolicy_cache_disabled alice_uncached alice_request eq_refl).
Defined.

Lemma RemovePolicies_without_cache_witness :
  RemovePolicies [["a"]; ["b"; "c"]] alice_uncached
  = (Ok (false, None), alice_uncached,
     [CallRemovePolicies [["a"]; ["b"; "c"]]]).
Proof.
  exact (RemovePolicies_without_cache alice_uncached [["a"]; ["b"; "c"]]
           (or_introl eq_refl)).
Defined.

(** ** RemovePolicies on rectangular input *)

Lemma irules_rectangular (rules : list (list string)) : ∀ ss : list string,
  Forall (λ rule, length rule = length ss) rules →
  irules (PString <$> ss) rules
  = (λ rule : list string, PString <$> rule) <$> rules.
Proof.
  induction rules as [|rule rules IH]; intros ss Hlen; [done|].
  apply Forall_cons in Hlen as [Hrule Hlen]. simpl.
  rewrite irule_after_strings, drop_ge, app_nil_r by lia.
  rewrite (IH rule); [done|].
  eapply Forall_impl; [exact Hlen|]. simpl. intros r Hr. congruence.
Qed.

Lemma delete_call_strings (rule : list string) :
  delete_call (PString <$> rule) = rule_delete rule.
Proof. unfold delete_call, rule_delete. by rewrite getKey_strings. Qed.

Section Rectangular.
Context {B E : Type} `{!Cache B} `{!Engine E}.
Implicit Types (e : CachedEnforcer B E) (c : B).

(** X18: on rules that all have the length of the first, and with no
    [Delete] reporting a backend failure, [RemovePolicies] deletes the
    key of every rule, one [Delete] per rule in the order of the list
    and on the shard of that key, then delegates to the engine and
    returns its outcome; it does not panic. *)
Theorem RemovePolicies_rectangular e rules0 rules :
  (∀ c key, is_failure (cache_Delete c key).1 = false) →
  enableCache e ≠ 0%Z →
  length (cache e) = shardPartitions →
  Forall (λ rule, length rule = length rules0) rules →
  let run := RemovePolicies (rules0 :: rules) e in
  run.1.1 = Ok (Enforcer_RemovePolicies (Enforcer e) (rules0 :: rules)).1
  ∧ run.2 = (rule_delete <$> rules0 :: rules)
            ++ [CallRemovePolicies (rules0 :: rules)].
Proof.
  intros Delete_ok Hen Hlen Hrect run.
  assert (Forall (λ rule, length rule ≤ length rules0) rules) as Hfit.
  { eapply Forall_impl; [exact Hrect|]. simpl. intros r Hr. lia. }
  destruct (RemovePolicies_run Delete_ok e rules0 rules [] Hen Hlen Hfit)
    as (e' & irule & _ & Heng & Hrun).
  rewrite app_nil_r in Hrun. fold run in Hrun. rewrite Hrun.
  assert (delete_call
            <$> irules (replicate (length rules0) PNil) (rules0 :: rules)
          = rule_delete <$> rules0 :: rules) as ->.
  { cbn [irules]. rewrite irule_after_first, irules_rectangular by done.
    rewrite !fmap_cons, delete_call_strings. f_equal.
    rewrite <- list_fmap_compose. apply list_fmap_ext.
    intros i rule _. apply delete_call_strings. }
  simpl. unfold call_RemovePolicies. simpl.
  by rewrite Heng, !app_nil_r.
Qed.

(** X19: a [Delete] that fails stops [RemovePolicies] at once: when the
    [Delete] for the first rule reports a backend failure, the call
    returns [false] with that error after this one backend call; the
    rules after it are not looked at, whatever their lengths, and the
    engine is not invoked. *)
Theorem RemovePolicies_first_delete_fails e rules0 rules c :
  enableCache e ≠ 0%Z →
  cache e !! getShardIdx (joinKey rules0) = Some c →
  is_failure (cache_Delete c (joinKey rules0)).1 = true →
  let idx := getShardIdx (joinKey rules0) in
  let d := cache_Delete c (joinKey rules0) in
  RemovePolicies (rules0 :: rules) e
  = (Ok (false, d.1), with_cache e (<[idx := d.2]> (cache e)),
     [rule_delete rules0]).
Proof.
  intros Hen Hc Hd idx d.
  rewrite RemovePolicies_enabled by done. unfold bind at 1. simpl.
  rewrite (bind_pure (lift _) _ e (PString <$> rules0)).
  - rewrite getKey_strings.
    rewrite (bind_Ok _ _ _ _ _ _ (shard_Delete_run e _ _ c Hc)).
    rewrite Hd. subst d idx. unfold rule_delete.
    by destruct (cache_Delete c (joinKey rules0)).1 as [[]|].
  - unfold lift. rewrite fill_irule_fits by (by rewrite length_replicate).
    by rewrite irule_after_first.
Qed.

End Rectangular.

Lemma RemovePolicies_rectangular_witness :
  let rules := [["alice"; "data1"; "read"]; ["bob"; "data2"; "write"]] in
  (RemovePolicies rules alice_cached).1.1 = Ok (false, None)
  ∧ (RemovePolicies rules alice_cached).2
    = [CallDelete 2 "alice$$data1$$read$$";
       CallDelete 29 "bob$$data2$$write$$"; CallRemovePolicies rules].
Proof.
  assert (Forall (λ rule : list string,
                    length rule = length ["alice"; "data1"; "read"])
            [["bob"; "data2"; "write"]]) as Hrect.
  { apply (bool_decide_unpack _). vm_compute. exact I. }
  exact (RemovePolicies_rectangular alice_cached
           ["alice"; "data1"; "read"] [["bob"; "data2"; "write"]]
           (Delete_reliable (B := DefaultCache)) ltac:(discriminate)
           eq_refl Hrect).
Defined.

Lemma RemovePolicies_first_delete_fails_witness :
  RemovePolicies [["a"]; ["b"; "c"]] readonly_all
  = (Ok (false, Some unavailable), readonly_all,
     [CallDelete (getShardIdx "a$$") "a$$"]).
Proof.
  exact (RemovePolicies_first_delete_fails readonly_all ["a"] [["b"; "c"]]
           (mkRemote ∅ ReadOnly) ltac:(discriminate) eq_refl eq_refl).
Defined.

(** ** No panic on a well-formed enforcer *)

Section Steady.
Context {B E : Type} `{!Cache B} `{!Engine E}.
Implicit Types (e : CachedEnforcer B E).

Lemma steady_ret {A} (a : A) : steady (ret (B := B) (E := E) a).
Proof. intros e Hlen. simpl. eauto. Qed.

Lemma steady_emit (ev : Event) : steady (emit (B := B) (E := E) ev).
Proof. intros e Hlen. simpl. eauto. Qed.

Lemma steady_LoadInt32 : steady (LoadInt32_enableCache (B := B) (E := E)).
Proof. intros e Hlen. simpl. eauto. Qed.

Lemma steady_get_expireTime : steady (get_expireTime (B := B) (E := E)).
Proof. intros e Hlen. simpl. eauto. Qed.

Lemma steady_call_Enforce (rvals : list Param) :
  steady (call_Enforce (B := B) (E := E) rvals).
Proof. intros e Hlen. simpl. eauto. Qed.

Lemma steady_call_LoadPolicy : steady (call_LoadPolicy (B := B) (E := E)).
Proof. intros e Hlen. simpl. eauto. Qed.

Lemma steady_call_RemovePolicy (params : list Param) :
  steady (call_RemovePolicy (B := B) (E := E) params).
Proof. intros e Hlen. simpl. eauto. Qed.

Lemma steady_shard (idx : nat) :
  idx < shardPartitions → steady (shard (B := B) (E := E) idx).
Proof.
  intros Hidx e Hlen. unfold shard.
  destruct (lookup_lt_is_Some_2 (cache e) idx) as [c ->]; [lia|].
  simpl. eauto.
Qed.

Lemma steady_set_shard (idx : nat) (c : B) :
  steady (set_shard (E := E) idx c).
Proof.
  intros e Hlen. simpl. rewrite length_insert. eauto.
Qed.

Lemma steady_bind {A C} (m : M B E A) (k : A → M B E C) :
  steady m → (∀ a, steady (k a)) → steady (bind m k).
Proof.
  intros Hm Hk e Hlen. unfold bind.
  destruct (Hm e Hlen) as ([a Ha] & Hl & Hf & Ht).
  destruct (m e) as [[r e1] t1]. simpl in *. subst r.
  destruct (Hk a e1 Hl) as ([b Hb] & Hl2 & Hf2 & Ht2).
  destruct (k a e1) as [[r2 e2] t2]. simpl in *.
  split_and!; [by eauto | done | congruence | congruence].
Qed.

Lemma steady_defer {A} (d : M B E unit) (body : M B E A) :
  steady d → steady body → steady (defer d body).
Proof.
  intros Hd Hbody e Hlen. unfold defer.
  destruct (Hbody e Hlen) as ([a Ha] & Hl & Hf & Ht).
  destruct (body e) as [[r e1] t1]. simpl in *. subst r.
  destruct (Hd e1 Hl) as (_ & Hl2 & Hf2 & Ht2).
  destruct (d e1) as [[u e2] t2]. simpl in *.
  split_and!; [by eauto | done | congruence | congruence].
Qed.

Ltac steady_step :=
  first
    [ apply steady_ret | apply steady_emit | apply steady_LoadInt32
    | apply steady_get_expireTime | apply steady_call_Enforce
    | apply steady_call_LoadPolicy | apply steady_call_RemovePolicy
    | apply steady_set_shard
    | apply steady_shard; first [apply getShardIdx_lt | lia]
    | apply steady_defer
    | apply steady_bind; [|intros ?] ].

Ltac steady_all := repeat (repeat case_match; steady_step).

Lemma steady_shard_Clear (idx : nat) :
  idx < shardPartitions → steady (shard_Clear (B := B) (E := E) idx).
Proof. intros Hidx. unfold shard_Clear. steady_all. Qed.

Lemma steady_LoadPolicy_loop (n : nat) : ∀ i,
  i + n ≤ shardPartitions →
  steady (LoadPolicy_loop (B := B) (E := E) n i).
Proof.
  induction n as [|n IH]; intros i Hi; simpl; [apply steady_ret|].
  apply steady_bind; [apply steady_shard_Clear; lia|]. intros err.
  destruct (negb (is_nil err)); [apply steady_ret | apply IH; lia].
Qed.

Lemma steady_InvalidateCache_loop (n : nat) : ∀ i,
  i + n ≤ shardPartitions →
  steady (InvalidateCache_loop (B := B) (E := E) n i).
Proof.
  induction n as [|n IH]; intros i Hi; simpl; [apply steady_ret|].
  apply steady_bind; [apply steady_emit|]. intros _.
  apply steady_defer; [apply steady_emit|].
  apply steady_bind; [apply steady_shard_Clear; lia|]. intros err.
  destruct (negb (is_nil err)); [apply steady_ret | apply IH; lia].
Qed.

(** X20: on an enforcer with [shardPartitions] shards, [Enforce],
    [LoadPolicy], [RemovePolicy] and [InvalidateCache] always return
    (no index is out of range, whatever the backends and the engine
    answer) and leave the number of shards, the enable flag and the
    expiry time unchanged. *)
Theorem methods_steady (rvals params : list Param) :
  steady (Enforce (B := B) (E := E) rvals)
  ∧ steady (LoadPolicy (B := B) (E := E))
  ∧ steady (RemovePolicy (B := B) (E := E) params)
  ∧ steady (InvalidateCache (B := B) (E := E)).
Proof.
  split_and!.
  - unfold Enforce, getCachedResult, setCachedResult, shard_Get, shard_Set.
    steady_all.
  - unfold LoadPolicy. apply steady_bind; [apply steady_LoadInt32|].
    intros enabled. apply steady_bind.
    + case_decide; [|apply steady_ret].
      apply steady_LoadPolicy_loop. unfold shardPartitions. lia.
    + intros err. destruct (negb (is_nil err)); steady_all.
  - unfold RemovePolicy, shard_Delete. steady_all.
  - apply steady_InvalidateCache_loop. unfold shardPartitions. lia.
Qed.

End Steady.

Lemma methods_steady_witness :
  (∃ a, (Enforce bob_request readonly_all).1.1 = Ok a)
  ∧ length (cache (Enforce bob_request readonly_all).1.2) = shardPartitions
  ∧ enableCache (Enforce bob_request readonly_all).1.2 = 1%Z
  ∧ expireTime (Enforce bob_request readonly_all).1.2 = 0%N.
Proof.
  destruct (methods_steady (B := Remote) (E := Policy) bob_request [])
    as (HEnforce & _).
  exact (HEnforce readonly_all eq_refl).
Defined.
